(** * pdf_to_corrected_yaml: the correction / enrichment pipeline

    A shallow embedding of [Scripts/AIGenerated/pdf_to_corrected_yaml.py]:
    the two oracle wrappers [correct_sloka_with_claude] and
    [parse_sloka_with_claude], the normalisation of a corrected sloka, the
    [verify] insertion and the two loops of [main] that fill the ordered
    dictionaries written out by [yaml.dump].

    Python values are modelled as the script uses them: a [str] is a list of
    Unicode code points, a [dict] is an insertion-ordered association list
    with unique keys, a decoded JSON document is a tree of such values, and an
    exception that leaves a function is an explicit [Raise] result. *)

From Stdlib Require Import String Ascii.
From Stdlib Require Import List NArith ZArith Bool Lia.
Import ListNotations.

Set Implicit Arguments.
Set Warnings "-register-all".

(** ** Python [str] *)

Module PyStr.

(** A character is its Unicode code point. *)
Definition char := N.
Definition str := list char.

Definition str_eq_dec : forall a b : str, {a = b} + {a <> b} :=
  list_eq_dec N.eq_dec.

Definition str_eqb (a b : str) : bool :=
  if str_eq_dec a b then true else false.

(** ASCII literals of the script, as code points. *)
Fixpoint lit (s : string) : str :=
  match s with
  | EmptyString => []
  | String c r => N_of_ascii c :: lit r
  end.

(** The same, with every apostrophe read as a double quote and every [|]
    as a line feed: a way to write down JSON text and replies of several
    lines in examples. *)
Definition txt (s : string) : str :=
  map (fun c => if (c =? 39)%N then 34%N
                else if (c =? 124)%N then 10%N else c) (lit s).

Definition NL : char := 10%N.      (* '\n' *)
Definition SP : char := 32%N.       (* ' '  *)
Definition BACKTICK : char := 96%N.
Definition DANDA : char := 2404%N.  (* U+0964, the single danda  *)
Definition DDANDA : char := 2405%N. (* U+0965, the double danda  *)

(** [str.isspace] on one character: the code points CPython treats as
    whitespace in [str.strip()] and [str.split()]. *)
Definition isspace (c : char) : bool :=
  ((9 <=? c) && (c <=? 13) || (28 <=? c) && (c <=? 32)
   || (c =? 133) || (c =? 160) || (c =? 5760)
   || (8192 <=? c) && (c <=? 8202)
   || (c =? 8232) || (c =? 8233) || (c =? 8239) || (c =? 8287)
   || (c =? 12288))%N.

(** [s.lstrip()], [s.rstrip()] and [s.strip()]. *)
Fixpoint lstrip (s : str) : str :=
  match s with
  | [] => []
  | c :: r => if isspace c then lstrip r else s
  end.

Fixpoint rstrip (s : str) : str :=
  match s with
  | [] => []
  | c :: r =>
      match rstrip r with
      | [] => if isspace c then [] else [c]
      | r' => c :: r'
      end
  end.

Definition strip (s : str) : str := rstrip (lstrip s).

(** [s.startswith(p)] and [s.endswith(p)]. *)
Fixpoint startswith (p s : str) : bool :=
  match p, s with
  | [], _ => true
  | _ :: _, [] => false
  | a :: p', b :: s' => (a =? b)%N && startswith p' s'
  end.

Definition endswith (p s : str) : bool := startswith (rev p) (rev s).

(** Slices [s[n:]] and [s[:-n]]. *)
Definition drop_front (n : nat) (s : str) : str := skipn n s.
Definition drop_back (n : nat) (s : str) : str := firstn (length s - n) s.

(** [s.split(sep)] for a one-character separator: never empty. *)
Fixpoint split_on (sep : char) (s : str) : list str :=
  match s with
  | [] => [[]]
  | c :: r =>
      if (c =? sep)%N then [] :: split_on sep r
      else match split_on sep r with
           | w :: ws => (c :: w) :: ws
           | [] => [[c]]
           end
  end.

(** [sep.join(parts)]. *)
Fixpoint join (sep : str) (parts : list str) : str :=
  match parts with
  | [] => []
  | [w] => w
  | w :: ws => w ++ sep ++ join sep ws
  end.

(** [s.split()]: the maximal runs of non-whitespace characters. *)
Fixpoint split_ws (s : str) : list str :=
  match s with
  | [] => []
  | c :: r =>
      if isspace c then split_ws r
      else match r with
           | [] => [[c]]
           | c' :: _ =>
               if isspace c' then [c] :: split_ws r
               else match split_ws r with
                    | w :: ws => (c :: w) :: ws
                    | [] => [[c]]
                    end
           end
  end.

(** [s.replace(old, new)] for a non-empty [old]: occurrences are replaced
    from the left and do not overlap.  [skip] counts the characters of a
    matched occurrence that are still to be passed over. *)
Fixpoint replace_from (old new : str) (skip : nat) (s : str) : str :=
  match s with
  | [] => []
  | c :: r =>
      match skip with
      | S k => replace_from old new k r
      | O =>
          if startswith old s
          then new ++ replace_from old new (length old - 1) r
          else c :: replace_from old new 0 r
      end
  end.

Definition replace (old new s : str) : str := replace_from old new 0 s.

(** [needle in s] between two strings. *)
Fixpoint contains (needle s : str) : bool :=
  startswith needle s ||
  match s with
  | [] => false
  | _ :: r => contains needle r
  end.

End PyStr.
Import PyStr.

(** ** Normalisation of a corrected sloka ([main], step 4) *)

(** [corrected_sloka.replace('\n', ' ')], then
    [' '.join(corrected_sloka.split())], then the doubled single danda is
    rewritten to the double danda. *)
Definition rewrite_dd (s : str) : str := replace [DANDA; DANDA] [DDANDA] s.

Definition normalize (corrected_sloka : str) : str :=
  let s1 := replace [NL] [SP] corrected_sloka in
  let s2 := join [SP] (split_ws s1) in
  rewrite_dd s2.


(** ** Python [dict] with string keys

    A [dict] keeps its keys in insertion order; assigning to a key that is
    already present replaces the value and leaves the key where it is. *)

Module PyDict.
Section Dict.
Variable V : Type.

Definition dict := list (str * V).

Definition keys (d : dict) : list str := map fst d.

(** [d.get(k)] *)
Fixpoint get (k : str) (d : dict) : option V :=
  match d with
  | [] => None
  | (k', v) :: r => if str_eqb k' k then Some v else get k r
  end.

(** [d[k] = v] *)
Fixpoint set (k : str) (v : V) (d : dict) : dict :=
  match d with
  | [] => [(k, v)]
  | (k', v') :: r =>
      if str_eqb k' k then (k', v) :: r else (k', v') :: set k v r
  end.

(** The invariant of a Python dict: no key occurs twice. *)
Definition wf (d : dict) : Prop := NoDup (keys d).
End Dict.
End PyDict.

(** ** Values produced by [json.loads] *)

Inductive json : Type :=
| JNull
| JBool (b : bool)
| JInt (z : Z)
| JFloat (literal : str)      (* a float, kept as the text that denotes it *)
| JStr (s : str)
| JArr (items : list json)
| JObj (fields : PyDict.dict json).

(** ** [json.loads]

    The decoder of Python's standard library (its C scanner, strict mode),
    transcribed over a list of code points.  [None] stands for the
    exception it raises ([JSONDecodeError], or [RecursionError] when the
    nesting is too deep). *)

Module Json.

Definition is_ws (c : char) : bool :=
  ((c =? 32) || (c =? 9) || (c =? 10) || (c =? 13))%N.

Fixpoint skip_ws (s : str) : str :=
  match s with
  | [] => []
  | c :: r => if is_ws c then skip_ws r else s
  end.

Definition is_digit (c : char) : bool := ((48 <=? c) && (c <=? 57))%N.

Definition hex_value (c : char) : option N :=
  if is_digit c then Some (c - 48)%N
  else if ((97 <=? c) && (c <=? 102))%N then Some (c - 87)%N
  else if ((65 <=? c) && (c <=? 70))%N then Some (c - 55)%N
  else None.

Definition hex4 (a b c d : char) : option N :=
  match hex_value a, hex_value b, hex_value c, hex_value d with
  | Some x, Some y, Some z, Some w => Some (((x * 16 + y) * 16 + z) * 16 + w)%N
  | _, _, _, _ => None
  end.

Definition is_high_surrogate (u : N) : bool := ((55296 <=? u) && (u <=? 56319))%N.
Definition is_low_surrogate (u : N) : bool := ((56320 <=? u) && (u <=? 57343))%N.
Definition join_surrogates (hi lo : N) : N :=
  (65536 + (hi - 55296) * 1024 + (lo - 56320))%N.

(** The character a one-letter escape stands for. *)
Definition simple_escape (c : char) : option char :=
  if (c =? 34)%N then Some 34%N          (* quote *)
  else if (c =? 92)%N then Some 92%N     (* backslash *)
  else if (c =? 47)%N then Some 47%N     (* slash *)
  else if (c =? 98)%N then Some 8%N      (* b: backspace *)
  else if (c =? 102)%N then Some 12%N    (* f: form feed *)
  else if (c =? 110)%N then Some 10%N    (* n: line feed *)
  else if (c =? 114)%N then Some 13%N    (* r: carriage return *)
  else if (c =? 116)%N then Some 9%N     (* t: tab *)
  else None.

(** The rest of a string after its opening quote: the decoded text and what
    follows the closing quote. *)
Fixpoint scanstring (s : str) : option (str * str) :=
  match s with
  | [] => None
  | c :: r =>
      if (c =? 34)%N then Some ([], r)
      else if (c =? 92)%N then
        match r with
        | [] => None
        | e :: r1 =>
            if (e =? 117)%N then
              match r1 with
              | h1 :: h2 :: h3 :: h4 :: r2 =>
                  match hex4 h1 h2 h3 h4 with
                  | None => None
                  | Some u =>
                      let plain :=
                        match scanstring r2 with
                        | Some (t, rest) => Some (u :: t, rest)
                        | None => None
                        end in
                      if is_high_surrogate u then
                        match r2 with
                        | b :: v :: g1 :: g2 :: g3 :: g4 :: ((_ :: _) as r3) =>
                            if ((b =? 92) && (v =? 117))%N then
                              match hex4 g1 g2 g3 g4 with
                              | None => None
                              | Some u2 =>
                                  if is_low_surrogate u2 then
                                    match scanstring r3 with
                                    | Some (t, rest) =>
                                        Some (join_surrogates u u2 :: t, rest)
                                    | None => None
                                    end
                                  else plain
                              end
                            else plain
                        | _ => plain
                        end
                      else plain
                  end
              | _ => None
              end
            else
              match simple_escape e with
              | None => None
              | Some ch =>
                  match scanstring r1 with
                  | Some (t, rest) => Some (ch :: t, rest)
                  | None => None
                  end
              end
        end
      else if (c <? 32)%N then None
      else
        match scanstring r with
        | Some (t, rest) => Some (c :: t, rest)
        | None => None
        end
  end.

Fixpoint span_digits (s : str) : str * str :=
  match s with
  | [] => ([], [])
  | c :: r =>
      if is_digit c then let (d, rest) := span_digits r in (c :: d, rest)
      else ([], s)
  end.

Definition digits_value (ds : str) : Z :=
  fold_left (fun acc c => (acc * 10 + (Z.of_N c - 48))%Z) ds 0%Z.

(** A number: an optional minus sign, then 0 or a run of digits that does
    not start with 0, then optionally a dot and digits, then optionally an
    exponent (e or E, an optional sign, digits).  It is an [int] when it has
    neither fraction nor exponent. *)

(** The integer part and what follows it. *)
Definition scan_int (s : str) : option (str * str) :=
  match s with
  | [] => None
  | c :: r =>
      if ((49 <=? c) && (c <=? 57))%N
      then let (d, rest) := span_digits r in Some (c :: d, rest)
      else if (c =? 48)%N then Some ([c], r)
      else None
  end.

(** The fraction, empty when a dot is not followed by a digit. *)
Definition scan_frac (s : str) : str * str :=
  match s with
  | dot :: ((d :: _) as r) =>
      if ((dot =? 46)%N && is_digit d)%bool
      then let (f, rest) := span_digits r in (dot :: f, rest)
      else ([], s)
  | _ => ([], s)
  end.

(** The exponent, empty when no digit comes after the letter and the sign. *)
Definition scan_exp (s : str) : str * str :=
  match s with
  | e :: r =>
      if ((e =? 101) || (e =? 69))%N then
        let (sign, r') :=
          match r with
          | sg :: t =>
              if ((sg =? 43) || (sg =? 45))%N then ([sg], t) else ([], r)
          | [] => ([], r)
          end in
        let (ed, rest) := span_digits r' in
        match ed with
        | [] => ([], s)
        | _ :: _ => (e :: sign ++ ed, rest)
        end
      else ([], s)
  | [] => ([], s)
  end.

Definition match_number (s : str) : option (json * str) :=
  let (neg, s1) :=
    match s with
    | c :: r => if (c =? 45)%N then (true, r) else (false, s)
    | [] => (false, [])
    end in
  match scan_int s1 with
  | None => None
  | Some (ip, r1) =>
      let (frac, r2) := scan_frac r1 in
      let (exp, r3) := scan_exp r2 in
      match frac, exp with
      | [], [] =>
          Some (JInt (if neg then (- digits_value ip)%Z
                      else digits_value ip), r3)
      | _, _ =>
          Some (JFloat ((if neg then [45%N] else []) ++ ip ++ frac ++ exp),
                r3)
      end
  end.

(** [word] at the front of [s]: what follows it. *)
Definition after (word : string) (s : str) : option str :=
  if startswith (lit word) s
  then Some (skipn (List.length (lit word)) s) else None.

(** One JSON value at the front of [s] ([scan_once]), the members of an
    object after its first quote has been seen to come, and the elements of
    an array.  Every call spends one unit of [fuel]. *)
Fixpoint scan_once (fuel : nat) (s : str) {struct fuel} : option (json * str) :=
  match fuel with
  | O => None
  | S fuel' =>
      match s with
      | [] => None
      | c :: r =>
          if (c =? 34)%N then
            match scanstring r with
            | Some (t, rest) => Some (JStr t, rest)
            | None => None
            end
          else if (c =? 123)%N then
            match skip_ws r with
            | c1 :: r1 =>
                if (c1 =? 125)%N then Some (JObj [], r1)
                else
                  match members fuel' (c1 :: r1) [] with
                  | Some (d, rest) => Some (JObj d, rest)
                  | None => None
                  end
            | [] => None
            end
          else if (c =? 91)%N then
            match skip_ws r with
            | c1 :: r1 =>
                if (c1 =? 93)%N then Some (JArr [], r1)
                else
                  match elements fuel' (c1 :: r1) with
                  | Some (vs, rest) => Some (JArr vs, rest)
                  | None => None
                  end
            | [] => None
            end
          else
            match
              (if (c =? 110)%N then after "null" s
               else if (c =? 116)%N then after "true" s
               else if (c =? 102)%N then after "false" s
               else if (c =? 78)%N then after "NaN" s
               else if (c =? 73)%N then after "Infinity" s
               else if (c =? 45)%N then after "-Infinity" s
               else None)
            with
            | Some rest =>
                Some (if (c =? 110)%N then JNull
                      else if (c =? 116)%N then JBool true
                      else if (c =? 102)%N then JBool false
                      else if (c =? 78)%N then JFloat (lit "NaN")
                      else if (c =? 73)%N then JFloat (lit "Infinity")
                      else JFloat (lit "-Infinity"), rest)
            | None => match_number s
            end
      end
  end
with members (fuel : nat) (s : str) (acc : PyDict.dict json) {struct fuel}
  : option (PyDict.dict json * str) :=
  match fuel with
  | O => None
  | S fuel' =>
      match s with
      | q :: r =>
          if (q =? 34)%N then
            match scanstring r with
            | None => None
            | Some (key, r1) =>
                match skip_ws r1 with
                | colon :: r2 =>
                    if (colon =? 58)%N then
                      match scan_once fuel' (skip_ws r2) with
                      | None => None
                      | Some (v, r3) =>
                          let acc' := PyDict.set key v acc in
                          match skip_ws r3 with
                          | c :: r4 =>
                              if (c =? 125)%N then Some (acc', r4)
                              else if (c =? 44)%N
                              then members fuel' (skip_ws r4) acc'
                              else None
                          | [] => None
                          end
                      end
                    else None
                | [] => None
                end
            end
          else None
      | [] => None
      end
  end
with elements (fuel : nat) (s : str) {struct fuel}
  : option (list json * str) :=
  match fuel with
  | O => None
  | S fuel' =>
      match scan_once fuel' s with
      | None => None
      | Some (v, r1) =>
          match skip_ws r1 with
          | c :: r2 =>
              if (c =? 93)%N then Some ([v], r2)
              else if (c =? 44)%N then
                match elements fuel' (skip_ws r2) with
                | Some (vs, rest) => Some (v :: vs, rest)
                | None => None
                end
              else None
          | [] => None
          end
      end
  end.

(** [json.loads(s)]: one value, surrounded by JSON whitespace only.  A text
    that starts with a byte order mark is refused.  The fuel bounds the
    number of nested calls by the length of the text. *)
Definition loads (s : str) : option json :=
  if startswith [65279%N] s then None
  else
    match scan_once (2 + 2 * List.length s) (skip_ws s) with
    | Some (v, rest) =>
        match skip_ws rest with
        | [] => Some v
        | _ :: _ => None
        end
    | None => None
    end.

End Json.

(** ** Exceptions *)

(** The exceptions met in the script; all of them derive from [Exception],
    so both [except Exception] clauses catch every one of them.
    [OracleError] is whatever [client.messages.create] raises (transport,
    authentication, quota). *)
Inductive exn : Type :=
| OracleError
| IndexError
| AttributeError
| TypeError
| JSONDecodeError.

Inductive result (A : Type) : Type :=
| Ok (a : A)
| Raise (e : exn).
Arguments Ok {A} a.
Arguments Raise {A} e.

Definition bind {A B : Type} (m : result A) (f : A -> result B) : result B :=
  match m with
  | Ok a => f a
  | Raise e => Raise e
  end.

Notation "x <- m ;; k" := (bind m (fun x => k))
  (at level 61, m at next level, right associativity).

(** A [for] loop that builds one value per item and stops at the first
    exception. *)
Fixpoint for_each {A B : Type} (f : A -> result B) (l : list A)
  : result (list B) :=
  match l with
  | [] => Ok []
  | a :: r => b <- f a ;; bs <- for_each f r ;; Ok (b :: bs)
  end.

(** ** The oracle ([client.messages.create]) *)

(** The two prompts are fixed templates around the sloka, so a request is
    told by the template, its [max_tokens] and the sloka. *)
Inductive task : Type := Correction | Parsing.

Record request : Type := Request {
  req_model : string;
  req_max_tokens : N;
  req_task : task;
  req_sloka : str
}.

(** A content block of a message: one with a [text] attribute, or one
    without. *)
Inductive block : Type :=
| TextBlock (text : str)
| OtherBlock.

(** What a call does: it raises, or returns a message. *)
Inductive reply : Type :=
| Fails (e : exn)
| Message (content : list block).

(** The client: its answer to the [n]-th call of the run (from 0) may depend
    on [n] and on the request in any way. *)
Definition client := nat -> request -> reply.

(** [message.content[0].text] *)
Definition first_text (r : reply) : result str :=
  match r with
  | Fails e => Raise e
  | Message [] => Raise IndexError
  | Message (TextBlock t :: _) => Ok t
  | Message (OtherBlock :: _) => Raise AttributeError
  end.

Definition correction_request (sloka_text : str) : request :=
  Request "claude-3-5-haiku@20241022" 1024 Correction sloka_text.

Definition parsing_request (sloka_text : str) : request :=
  Request "claude-3-5-haiku@20241022" 2048 Parsing sloka_text.

(** ** [correct_sloka_with_claude] *)

Definition correct_sloka_with_claude
    (sloka_text : str) (create : request -> reply) : str :=
  match first_text (create (correction_request sloka_text)) with
  | Ok text => strip text
  | Raise _ => sloka_text     (* return original if correction fails *)
  end.

(** ** [parse_sloka_with_claude] *)

Definition FENCE : str := lit "```".
Definition FENCE_JSON : str := lit "```json".

(** [lines[1:-1]] *)
Definition inner_lines (lines : list str) : list str :=
  tl (firstn (List.length lines - 1) lines).

(** The value of [response_text] handed to [json.loads]. *)
Definition response_text (text : str) : str :=
  let t0 := strip text in
  let t1 :=
    if startswith FENCE t0 then
      let lines := split_on NL t0 in
      if (2 <? List.length lines)%nat then join [NL] (inner_lines lines)
      else t0
    else t0 in
  let t2 := if startswith FENCE_JSON t1 then drop_front 7 t1 else t1 in
  let t3 := if endswith FENCE t2 then drop_back 3 t2 else t2 in
  strip t3.

(** [{"entries": []}] *)
Definition no_entries : json := JObj [(lit "entries", JArr [])].

Definition parse_sloka_with_claude
    (sloka_text : str) (create : request -> reply) : json :=
  match first_text (create (parsing_request sloka_text)) with
  | Raise _ => no_entries
  | Ok text =>
      match Json.loads (response_text text) with
      | Some parsed => parsed
      | None => no_entries
      end
  end.

(** ** [main], step 5: [verify] right after [head] *)

Definition HEAD : str := lit "head".
Definition VERIFY : str := lit "verify".
Definition ENTRIES : str := lit "entries".

(** One step of the loop that refills [new_entry]:
    [if key != 'head': new_entry[key] = value]. *)
Definition refill (new_entry : PyDict.dict json) (kv : str * json)
  : PyDict.dict json :=
  if str_eqb (fst kv) HEAD then new_entry
  else PyDict.set (fst kv) (snd kv) new_entry.

(** The new dict of an entry that has a [head]:
    [new_entry = {'head': entry['head'], 'verify': False}], then every other
    item of the entry is assigned in the entry's order. *)
Definition rebuild (head : json) (entry : PyDict.dict json) : PyDict.dict json :=
  fold_left refill entry [(HEAD, head); (VERIFY, JBool false)].

Definition is_head (v : json) : bool :=
  match v with
  | JStr s => str_eqb s HEAD
  | _ => false
  end.

(** The body of the loop over the entries.  ['head' in entry] is a key test
    on a dict, a membership test on a list, a substring test on a str and a
    [TypeError] on anything else; [entry['head']] is a [TypeError] on a list
    and on a str.  The entry is emptied and refilled in place; as
    [json.loads] shares no dict between two places of its result, that is
    the entry replaced where it stands. *)
Definition reorder_entry (entry : json) : result json :=
  match entry with
  | JObj d =>
      match PyDict.get HEAD d with
      | Some head => Ok (JObj (rebuild head d))
      | None => Ok entry
      end
  | JArr l => if existsb is_head l then Raise TypeError else Ok entry
  | JStr s => if contains HEAD s then Raise TypeError else Ok entry
  | JNull | JBool _ | JInt _ | JFloat _ => Raise TypeError
  end.

(** What [for entry in x] runs over. *)
Definition iterate (x : json) : result (list json) :=
  match x with
  | JArr l => Ok l
  | JObj d => Ok (map JStr (PyDict.keys d))
  | JStr s => Ok (map (fun c => JStr [c]) s)
  | JNull | JBool _ | JInt _ | JFloat _ => Raise TypeError
  end.

(** Lines 272 to 282: [parsed.get('entries', [])] needs a dict; the loop
    changes the entries of a list and nothing else. *)
Definition add_verify (parsed : json) : result json :=
  match parsed with
  | JObj d =>
      match PyDict.get ENTRIES d with
      | None => Ok parsed
      | Some x =>
          items <- iterate x ;;
          items' <- for_each reorder_entry items ;;
          Ok (match x with
              | JArr _ => JObj (PyDict.set ENTRIES (JArr items') d)
              | _ => parsed
              end)
      end
  | _ => Raise AttributeError
  end.

(** [parsed.get('entries', [])] read back from a stored payload: the kosha
    records of a verse. *)
Definition records (payload : json) : list json :=
  match payload with
  | JObj d =>
      match PyDict.get ENTRIES d with
      | Some (JArr l) => l
      | _ => []
      end
  | _ => []
  end.

(** ** The two loops of [main]

    The state of a run is the log of the requests sent so far; the [n]-th
    call is answered by [c n]. *)

Fixpoint correct_loop (c : client) (log : list request) (slokas : list str)
    (corrected_data : PyDict.dict json) : PyDict.dict json * list request :=
  match slokas with
  | [] => (corrected_data, log)
  | sloka :: rest =>
      let corrected_sloka :=
        normalize (correct_sloka_with_claude sloka (c (List.length log))) in
      correct_loop c (log ++ [correction_request sloka]) rest
        (PyDict.set corrected_sloka (JObj []) corrected_data)
  end.

Fixpoint enrich_loop (c : client) (log : list request)
    (items : list (str * json)) (enriched_data : PyDict.dict json)
  : result (PyDict.dict json) * list request :=
  match items with
  | [] => (Ok enriched_data, log)
  | (sloka, _) :: rest =>
      let parsed := parse_sloka_with_claude sloka (c (List.length log)) in
      let log' := log ++ [parsing_request sloka] in
      match add_verify parsed with
      | Raise e => (Raise e, log')
      | Ok parsed' =>
          enrich_loop c log' rest (PyDict.set sloka parsed' enriched_data)
      end
  end.

(** [main] from step 4 on: [yaml_data] is the list of the keys of the dict of
    step 3.  The result is [final_data], the dict that [yaml.dump] writes
    with [sort_keys=False], that is in this order; or the exception that
    ends the run before anything is written. *)
Definition main (c : client) (yaml_data : list str) (skip_enrichment : bool)
  : result (PyDict.dict json) * list request :=
  let (corrected_data, log) := correct_loop c [] yaml_data [] in
  if skip_enrichment then (Ok corrected_data, log)
  else enrich_loop c log corrected_data [].

(** The correction stage on one unit: the oracle wrapper, then the
    normalisation of [main]. *)
Definition correct_stage (sloka : str) (create : request -> reply) : str :=
  normalize (correct_sloka_with_claude sloka create).

(** The enrichment stage on one verse: the oracle wrapper, then the [verify]
    insertion of [main]. *)
Definition enrich_stage (sloka : str) (create : request -> reply)
  : result json :=
  add_verify (parse_sloka_with_claude sloka create).

(** The corrected texts of the units, in input order. *)
Fixpoint corrected_texts (c : client) (n : nat) (slokas : list str)
  : list str :=
  match slokas with
  | [] => []
  | sloka :: rest =>
      correct_stage sloka (c n) :: corrected_texts c (S n) rest
  end.

(** ** Vocabulary of the statements *)

(** Two characters that are both the single danda. *)
Definition is_dd (a b : char) : bool := ((a =? DANDA) && (b =? DANDA))%N.

(** No two adjacent single dandas. *)
Fixpoint no_dd (s : str) : bool :=
  match s with
  | a :: (b :: _) as r => negb (is_dd a b) && no_dd r
  | _ => true
  end.

(** A word of [s.split()]: not empty and free of whitespace. *)
Definition word (w : str) : Prop :=
  w <> [] /\ forallb (fun c => negb (isspace c)) w = true.

(** The fields of an entry other than [head], in the entry's order. *)
Definition without_head (entry : PyDict.dict json) : PyDict.dict json :=
  filter (fun kv => negb (str_eqb (fst kv) HEAD)) entry.

(** The fields of an entry other than [head] and [verify], in the entry's
    order. *)
Definition without_head_verify (entry : PyDict.dict json)
  : PyDict.dict json :=
  filter (fun kv => negb (str_eqb (fst kv) HEAD)
                    && negb (str_eqb (fst kv) VERIFY)) entry.

(** The keys of a dict after [d[k] = ...]: [k] goes to the end when it is
    new, and nothing moves when it is not. *)
Definition add_key (ks : list str) (k : str) : list str :=
  if in_dec str_eq_dec k ks then ks else ks ++ [k].

(** The distinct texts of a list, each at its first appearance. *)
Definition first_appearances (texts : list str) : list str :=
  fold_left add_key texts [].

(** ** Clients used in examples *)

(** Every call raises. *)
Definition down : client := fun _ _ => Fails OracleError.

(** Corrections raise; every parse is answered with [reply]. *)
Definition parses_with (reply : str) : client :=
  fun _ rq =>
    match req_task rq with
    | Correction => Fails OracleError
    | Parsing => Message [TextBlock reply]
    end.

(** Corrections raise; the first parse of the run is answered with
    [first] and the later ones with [later]. *)
Definition parses_first_with (n : nat) (first later : str) : client :=
  fun k rq =>
    match req_task rq with
    | Correction => Fails OracleError
    | Parsing => Message [TextBlock (if Nat.eqb k n then first else later)]
    end.

(** ** Fenced replies *)

(** A payload wrapped in a code fence: optional whitespace, the opening
    fence with its language tag (which may be empty) on a line, the payload,
    the closing fence on a line of its own, optional whitespace. *)
Definition fenced (before tag payload after : str) : str :=
  before ++ FENCE ++ tag ++ NL :: payload ++ NL :: FENCE ++ after.

Definition blank (s : str) : Prop := forallb isspace s = true.

Definition one_line (s : str) : Prop :=
  forallb (fun c => negb (c =? NL)%N) s = true.

(** A payload that, whitespace apart, neither begins nor ends with three
    backticks, as no JSON text does. *)
Definition unfenced (payload : str) : Prop :=
  startswith FENCE (strip payload) = false
  /\ endswith FENCE (strip payload) = false.

(** ** Where a decoded value ends *)

(** [rest] is what is left of [s] after a piece that does not end with a
    backtick. *)
Definition ends_before (s rest : str) : Prop :=
  exists pre c, s = pre ++ c :: rest /\ c <> BACKTICK.

(** A piece that ends with a digit. *)
Definition digit_end (body : str) : Prop :=
  exists pre c, body = pre ++ [c] /\ Json.is_digit c = true.

(** ** Well-formed values *)

(** Every dict of a value has distinct keys. *)
Fixpoint json_wf (v : json) : Prop :=
  match v with
  | JArr l =>
      (fix all (l : list json) : Prop :=
         match l with
         | [] => True
         | x :: r => json_wf x /\ all r
         end) l
  | JObj d =>
      NoDup (map fst d)
      /\ (fix all (d : list (str * json)) : Prop :=
            match d with
            | [] => True
            | (_, x) :: r => json_wf x /\ all r
            end) d
  | JNull | JBool _ | JInt _ | JFloat _ | JStr _ => True
  end.

(** ** Replies of the expected shape *)

(** A dict whose [entries], when present, is a list of dicts: the only
    shape on which the [verify] insertion cannot raise whatever the
    fields. *)
Definition is_dict (v : json) : bool :=
  match v with
  | JObj _ => true
  | _ => false
  end.

Definition well_shaped (parsed : json) : bool :=
  match parsed with
  | JObj d =>
      match PyDict.get ENTRIES d with
      | None => true
      | Some (JArr l) => forallb is_dict l
      | Some _ => false
      end
  | _ => false
  end.

(** ** Tactics *)

(** Take apart the [match] or [if] that heads a hypothesis. *)
Ltac break_match_in H :=
  match type of H with
  | context [match ?x with _ => _ end] =>
      match x with
      | context [match _ with _ => _ end] => fail 1
      | _ => destruct x eqn:?
      end
  end.

(** ** Vocabulary of the further properties *)

(** The only whitespace of a text is the plain space. *)
Definition only_plain_spaces (s : str) : bool :=
  forallb (fun c => negb (isspace c) || (c =? SP)%N) s.

(** The canonical single-line form of a verse: nothing to strip, no
    whitespace but single plain spaces, no doubled single danda. *)
Definition canonical (s : str) : Prop :=
  strip s = s
  /\ only_plain_spaces s = true
  /\ contains [SP; SP] s = false
  /\ contains [DANDA; DANDA] s = false.

(** * Properties *)

(** ** Strings *)

#[local] Arguments isspace : simpl never.

(** Induction two characters at a time, as the danda rewriting reads. *)
Lemma pair_ind (P : str -> Prop) :
  P [] -> (forall a, P [a]) ->
  (forall a b r, P r -> P (b :: r) -> P (a :: b :: r)) ->
  forall s, P s.
Proof.
  intros H0 H1 H2 s.
  assert (H : P s /\ forall a, P (a :: s)); [| tauto].
  induction s as [| b r [IHr IHbr]]; split; auto.
Qed.

Lemma replace_dd_nil : rewrite_dd [] = [].
Proof. reflexivity. Qed.

Lemma replace_dd_one a : rewrite_dd [a] = [a].
Proof.
  unfold rewrite_dd, replace. cbn [replace_from startswith].
  rewrite andb_false_r. reflexivity.
Qed.

Lemma replace_dd_cons2 a b r :
  rewrite_dd (a :: b :: r) =
  if is_dd a b then DDANDA :: rewrite_dd r else a :: rewrite_dd (b :: r).
Proof.
  unfold rewrite_dd, replace, is_dd. cbn [replace_from startswith List.length Nat.sub app].
  rewrite (N.eqb_sym DANDA a), (N.eqb_sym DANDA b), andb_true_r.
  destruct ((a =? DANDA)%N && (b =? DANDA)%N); reflexivity.
Qed.

(** [replace('\n', ' ')] acts character by character. *)
Lemma replace_nl_map s :
  replace [NL] [SP] s = map (fun c => if (c =? NL)%N then SP else c) s.
Proof.
  unfold replace. induction s as [| c r IH]; [reflexivity |].
  cbn [replace_from startswith List.length Nat.sub app map].
  rewrite (N.eqb_sym NL c), andb_true_r, IH.
  destruct (c =? NL)%N; reflexivity.
Qed.

Lemma isspace_SP : isspace SP = true.
Proof. reflexivity. Qed.

Lemma isspace_NL : isspace NL = true.
Proof. reflexivity. Qed.

Lemma isspace_DDANDA : isspace DDANDA = false.
Proof. reflexivity. Qed.

Lemma is_dd_space_l a b : isspace a = true -> is_dd a b = false.
Proof.
  unfold is_dd. destruct (N.eqb_spec a DANDA) as [-> |]; [| reflexivity].
  discriminate.
Qed.

Lemma is_dd_space_r a b : isspace b = true -> is_dd a b = false.
Proof.
  unfold is_dd. destruct (N.eqb_spec b DANDA) as [-> |].
  - discriminate.
  - intros _. apply andb_false_r.
Qed.

Lemma is_dd_DDANDA_l b : is_dd DDANDA b = false.
Proof. reflexivity. Qed.

Lemma is_dd_DDANDA_r a : is_dd a DDANDA = false.
Proof. unfold is_dd. apply andb_false_r. Qed.

(** *** Words *)

Lemma word_cons c w :
  isspace c = false -> forallb (fun c => negb (isspace c)) w = true ->
  word (c :: w).
Proof.
  intros Hc Hw. split; [discriminate |]. cbn [forallb]. now rewrite Hc, Hw.
Qed.

Lemma word_inv c w :
  word (c :: w) ->
  isspace c = false /\ forallb (fun c => negb (isspace c)) w = true.
Proof.
  intros [_ H]. cbn [forallb] in H. apply andb_true_iff in H as [Hc Hw].
  split; [now apply negb_true_iff in Hc | exact Hw].
Qed.

Lemma split_ws_words s : Forall word (split_ws s).
Proof.
  induction s as [| c r IH]; [constructor |].
  cbn [split_ws]. destruct (isspace c) eqn:Hc; [exact IH |].
  destruct r as [| c' r'].
  - constructor; [| constructor]. now apply word_cons.
  - destruct (isspace c') eqn:Hc'.
    + constructor; [now apply word_cons | exact IH].
    + destruct (split_ws (c' :: r')) as [| w ws].
      * constructor; [now apply word_cons | constructor].
      * inversion IH as [| ? ? Hw Hws]; subst.
        constructor; [| exact Hws].
        destruct Hw as [_ Hw]. now apply word_cons.
Qed.

Lemma split_ws_word_sep w t :
  word w -> split_ws (w ++ SP :: t) = w :: split_ws t.
Proof.
  induction w as [| c w IH]; intros Hw; [now destruct Hw |].
  apply word_inv in Hw as [Hc Hw].
  destruct w as [| c' w'].
  - cbn [app split_ws]. now rewrite Hc, isspace_SP.
  - assert (Hw' : word (c' :: w')) by (split; [discriminate | exact Hw]).
    specialize (IH Hw').
    destruct (word_inv Hw') as [Hc' _].
    cbn [app] in IH |- *.
    remember (c' :: w' ++ SP :: t) as r eqn:Er.
    cbn [split_ws]. rewrite Hc. rewrite Er at 1. rewrite Hc', IH.
    reflexivity.
Qed.

Lemma split_ws_word w : word w -> split_ws w = [w].
Proof.
  induction w as [| c w IH]; intros Hw; [now destruct Hw |].
  apply word_inv in Hw as [Hc Hw].
  destruct w as [| c' w'].
  - cbn [split_ws]. now rewrite Hc.
  - assert (Hw' : word (c' :: w')) by (split; [discriminate | exact Hw]).
    specialize (IH Hw'). destruct (word_inv Hw') as [Hc' _].
    cbn [split_ws]. rewrite Hc, Hc'.
    cbn [split_ws] in IH. rewrite Hc' in IH. rewrite IH. reflexivity.
Qed.

Lemma join_cons2 sep w w2 ws :
  join sep (w :: w2 :: ws) = w ++ sep ++ join sep (w2 :: ws).
Proof. reflexivity. Qed.

(** Splitting what was joined with single spaces gives the words back. *)
Lemma split_ws_join ws :
  Forall word ws -> split_ws (join [SP] ws) = ws.
Proof.
  induction 1 as [| w ws Hw Hws IH]; [reflexivity |].
  destruct ws as [| w2 ws].
  - now apply split_ws_word.
  - rewrite join_cons2. cbn [app].
    rewrite split_ws_word_sep by exact Hw. now rewrite IH.
Qed.

(** *** The danda rewriting *)

(** The first character of a rewritten text is the double danda or the
    first character of the text. *)
Lemma rewrite_dd_head b r :
  exists t, rewrite_dd (b :: r) = DDANDA :: t \/ rewrite_dd (b :: r) = b :: t.
Proof.
  destruct r as [| c r].
  - exists []. right. apply replace_dd_one.
  - rewrite replace_dd_cons2. destruct (is_dd b c); eexists; eauto.
Qed.

(** Rewriting leaves no doubled single danda behind. *)
Lemma rewrite_dd_no_dd (s : str) : no_dd (rewrite_dd s) = true.
Proof.
  induction s as [| a | a b r IHr IHbr] using pair_ind.
  - reflexivity.
  - rewrite replace_dd_one. reflexivity.
  - rewrite replace_dd_cons2. destruct (is_dd a b) eqn:Hab.
    + destruct (rewrite_dd r) as [| x t] eqn:E; [reflexivity |].
      cbn [no_dd]. rewrite is_dd_DDANDA_l. exact IHr.
    + destruct (rewrite_dd_head b r) as [t [E | E]]; rewrite E in IHbr |- *.
      * cbn [no_dd]. rewrite is_dd_DDANDA_r. exact IHbr.
      * cbn [no_dd]. rewrite Hab. exact IHbr.
Qed.

(** A text without a doubled single danda is left as it is. *)
Lemma rewrite_dd_fixed (s : str) : no_dd s = true -> rewrite_dd s = s.
Proof.
  induction s as [| a | a b r IHr IHbr] using pair_ind; intros H.
  - reflexivity.
  - apply replace_dd_one.
  - cbn [no_dd] in H. apply andb_true_iff in H as [Hab H].
    rewrite replace_dd_cons2. apply negb_true_iff in Hab. rewrite Hab.
    now rewrite IHbr.
Qed.

Lemma rewrite_dd_idem s : rewrite_dd (rewrite_dd s) = rewrite_dd s.
Proof. apply rewrite_dd_fixed, rewrite_dd_no_dd. Qed.

(** Rewriting goes through a space. *)
Lemma rewrite_dd_sep (w t : str) :
  rewrite_dd (w ++ SP :: t) = rewrite_dd w ++ SP :: rewrite_dd t.
Proof.
  induction w as [| a | a b r IHr IHbr] using pair_ind.
  - cbn [app]. destruct t as [| c t].
    + now rewrite replace_dd_one.
    + rewrite (replace_dd_cons2 SP c t).
      rewrite is_dd_space_l by apply isspace_SP. reflexivity.
  - cbn [app]. rewrite replace_dd_cons2.
    rewrite is_dd_space_r by apply isspace_SP.
    rewrite replace_dd_one. cbn [app]. f_equal.
  - change ((a :: b :: r) ++ SP :: t) with (a :: b :: r ++ SP :: t).
    rewrite !replace_dd_cons2. destruct (is_dd a b).
    + rewrite IHr. reflexivity.
    + change (b :: r ++ SP :: t) with ((b :: r) ++ SP :: t).
      rewrite IHbr. reflexivity.
Qed.

Lemma rewrite_dd_join ws :
  rewrite_dd (join [SP] ws) = join [SP] (map rewrite_dd ws).
Proof.
  induction ws as [| w ws IH]; [reflexivity |].
  destruct ws as [| w2 ws]; [reflexivity |].
  rewrite join_cons2. cbn [app]. rewrite rewrite_dd_sep, IH. reflexivity.
Qed.

(** The characters of a rewritten text come from the text, the double
    danda apart. *)
Lemma rewrite_dd_forallb (P : char -> bool) (s : str) :
  P DDANDA = true -> forallb P s = true -> forallb P (rewrite_dd s) = true.
Proof.
  intros HK.
  induction s as [| a | a b r IHr IHbr] using pair_ind; intros H.
  - reflexivity.
  - now rewrite replace_dd_one.
  - rewrite replace_dd_cons2.
    cbn [forallb] in H. apply andb_true_iff in H as [Ha H].
    destruct (is_dd a b).
    + cbn [forallb]. rewrite HK. apply IHr.
      cbn [forallb] in H. now apply andb_true_iff in H as [_ H].
    + cbn [forallb]. rewrite Ha. now apply IHbr.
Qed.

Lemma rewrite_dd_not_nil s : s <> [] -> rewrite_dd s <> [].
Proof.
  destruct s as [| b r]; [congruence |]. intros _.
  destruct (rewrite_dd_head b r) as [t [E | E]]; rewrite E; discriminate.
Qed.

Lemma rewrite_dd_word w : word w -> word (rewrite_dd w).
Proof.
  intros [Hne Hw]. split.
  - now apply rewrite_dd_not_nil.
  - apply rewrite_dd_forallb; [| exact Hw]. now rewrite isspace_DDANDA.
Qed.

(** *** Line feeds *)

Lemma replace_nl_fixed s :
  forallb (fun c => negb (c =? NL)%N) s = true -> replace [NL] [SP] s = s.
Proof.
  rewrite replace_nl_map. induction s as [| c r IH]; [reflexivity |].
  cbn [forallb map]. intros H. apply andb_true_iff in H as [Hc H].
  apply negb_true_iff in Hc. rewrite Hc, IH by exact H. reflexivity.
Qed.

Lemma word_no_nl w :
  word w -> forallb (fun c => negb (c =? NL)%N) w = true.
Proof.
  intros [_ H]. induction w as [| c w IH]; [reflexivity |].
  cbn [forallb] in *. apply andb_true_iff in H as [Hc H].
  rewrite IH by exact H. rewrite andb_true_r.
  destruct (N.eqb_spec c NL) as [-> |]; [| reflexivity].
  now rewrite isspace_NL in Hc.
Qed.

Lemma join_words_no_nl ws :
  Forall word ws ->
  forallb (fun c => negb (c =? NL)%N) (join [SP] ws) = true.
Proof.
  induction 1 as [| w ws Hw Hws IH]; [reflexivity |].
  destruct ws as [| w2 ws]; [now apply word_no_nl |].
  rewrite join_cons2, !forallb_app.
  apply andb_true_iff; split; [now apply word_no_nl |].
  apply andb_true_iff; split; [reflexivity | exact IH].
Qed.

(** *** Normal forms *)

(** A text made of words joined by single spaces is left as it is by the
    first two steps of the normalisation. *)
Lemma normalize_joined ws :
  Forall word ws -> normalize (join [SP] ws) = rewrite_dd (join [SP] ws).
Proof.
  intros H. unfold normalize.
  rewrite replace_nl_fixed by now apply join_words_no_nl.
  now rewrite split_ws_join.
Qed.

(** ** Stripping, splitting into lines, prefixes and suffixes *)

Lemma lstrip_spaces_app ws s :
  forallb isspace ws = true -> lstrip (ws ++ s) = lstrip s.
Proof.
  induction ws as [| c ws IH]; cbn [forallb app lstrip]; [reflexivity |].
  intros H. apply andb_true_iff in H as [Hc H]. now rewrite Hc, IH.
Qed.

Lemma lstrip_nonspace c s : isspace c = false -> lstrip (c :: s) = c :: s.
Proof. intros H. cbn [lstrip]. now rewrite H. Qed.

(** Stripping on the left stops before a character that is not a space. *)
Lemma lstrip_app_nonspace x c y :
  isspace c = false -> lstrip (x ++ c :: y) = lstrip x ++ c :: y.
Proof.
  intros Hc. induction x as [| a x IH]; cbn [app lstrip].
  - now rewrite Hc.
  - destruct (isspace a); [exact IH | reflexivity].
Qed.

Lemma rstrip_spaces ws : forallb isspace ws = true -> rstrip ws = [].
Proof.
  induction ws as [| c ws IH]; cbn [forallb rstrip]; [reflexivity |].
  intros H. apply andb_true_iff in H as [Hc H]. now rewrite IH, Hc.
Qed.

Lemma rstrip_app_spaces s ws :
  forallb isspace ws = true -> rstrip (s ++ ws) = rstrip s.
Proof.
  intros H. induction s as [| c s IH]; cbn [app rstrip].
  - now apply rstrip_spaces.
  - now rewrite IH.
Qed.

Lemma rstrip_nonspace_cons c s :
  isspace c = false -> rstrip (c :: s) = c :: rstrip s.
Proof.
  intros H. cbn [rstrip]. rewrite H. now destruct (rstrip s).
Qed.

Lemma rstrip_last_nonspace s c :
  isspace c = false -> rstrip (s ++ [c]) = s ++ [c].
Proof.
  intros H. induction s as [| a s IH]; cbn [app rstrip].
  - now rewrite H.
  - rewrite IH. now destruct s.
Qed.

Lemma rstrip_idem s : rstrip (rstrip s) = rstrip s.
Proof.
  induction s as [| c s IH]; [reflexivity |].
  cbn [rstrip]. destruct (rstrip s) as [| a r'] eqn:E.
  - destruct (isspace c) eqn:Hc; [reflexivity |]. cbn [rstrip]. now rewrite Hc.
  - cbn [rstrip]. cbn [rstrip] in IH. rewrite IH. reflexivity.
Qed.

Lemma lstrip_head s :
  lstrip s = [] \/ exists c r, lstrip s = c :: r /\ isspace c = false.
Proof.
  induction s as [| c s IH]; cbn [lstrip]; [now left |].
  destruct (isspace c) eqn:E; [exact IH | right; eauto].
Qed.

Lemma strip_idem s : strip (strip s) = strip s.
Proof.
  unfold strip. destruct (lstrip_head s) as [-> | (c & r & -> & Hc)].
  - reflexivity.
  - rewrite (@rstrip_nonspace_cons c r Hc), (@lstrip_nonspace c _ Hc).
    rewrite <- (@rstrip_nonspace_cons c r Hc). apply rstrip_idem.
Qed.

Lemma startswith_app p s : startswith p (p ++ s) = true.
Proof.
  induction p as [| a p IH]; [reflexivity |].
  cbn [app startswith]. now rewrite N.eqb_refl, IH.
Qed.

Lemma startswith_split p : forall s,
  startswith p s = true -> exists r, s = p ++ r.
Proof.
  induction p as [| a p IH]; intros s H; [now exists s |].
  destruct s as [| b s]; [discriminate |].
  cbn [startswith] in H. apply andb_true_iff in H as [Hab H].
  apply N.eqb_eq in Hab. subst b. destruct (IH _ H) as [r ->].
  now exists r.
Qed.

Lemma endswith_app p x : endswith p (x ++ p) = true.
Proof. unfold endswith. rewrite rev_app_distr. apply startswith_app. Qed.

Lemma endswith_split p s : endswith p s = true -> exists x, s = x ++ p.
Proof.
  unfold endswith. intros H. apply startswith_split in H as [r Hr].
  exists (rev r). rewrite <- (rev_involutive s), Hr, rev_app_distr.
  now rewrite rev_involutive.
Qed.

Lemma split_on_not_nil sep s : split_on sep s <> [].
Proof.
  destruct s as [| c r]; cbn [split_on]; [discriminate |].
  destruct (c =? sep)%N; [discriminate |].
  destruct (split_on sep r); discriminate.
Qed.

(** The lines of two texts put on either side of a separator. *)
Lemma split_on_app sep x y :
  split_on sep (x ++ sep :: y) = split_on sep x ++ split_on sep y.
Proof.
  induction x as [| c x IH]; cbn [app split_on].
  - now rewrite N.eqb_refl.
  - rewrite IH. destruct (c =? sep)%N; [reflexivity |].
    destruct (split_on sep x) as [| w ws] eqn:E; [| reflexivity].
    now apply split_on_not_nil in E.
Qed.

Lemma split_on_one_line sep s :
  forallb (fun c => negb (c =? sep)%N) s = true -> split_on sep s = [s].
Proof.
  induction s as [| c s IH]; cbn [forallb split_on]; [reflexivity |].
  intros H. apply andb_true_iff in H as [Hc H].
  apply negb_true_iff in Hc. now rewrite Hc, IH.
Qed.

(** Joining the lines of a text gives the text back. *)
Lemma join_split_on sep s : join [sep] (split_on sep s) = s.
Proof.
  induction s as [| c s IH]; [reflexivity |].
  cbn [split_on]. destruct (N.eqb_spec c sep) as [-> |].
  - destruct (split_on sep s) as [| w ws] eqn:E;
      [now apply split_on_not_nil in E |].
    rewrite join_cons2, IH. reflexivity.
  - destruct (split_on sep s) as [| w ws] eqn:E;
      [now apply split_on_not_nil in E |].
    destruct ws as [| w2 ws].
    + cbn [join] in *. now rewrite IH.
    + rewrite join_cons2 in *. rewrite <- IH. reflexivity.
Qed.

Lemma inner_lines_between (a b : str) (l : list str) :
  inner_lines (a :: l ++ [b]) = l.
Proof.
  unfold inner_lines. cbn [List.length]. rewrite length_app. cbn [List.length].
  replace (S (List.length l + 1) - 1) with (List.length (a :: l))
    by (cbn [List.length]; lia).
  change (a :: l ++ [b]) with ((a :: l) ++ [b]).
  rewrite firstn_app, Nat.sub_diag, firstn_all. cbn [firstn].
  now rewrite app_nil_r.
Qed.

(** ** The decoder: where a value ends *)

Lemma ends_before_cons a s rest : ends_before s rest -> ends_before (a :: s) rest.
Proof.
  intros (pre & c & -> & Hc). exists (a :: pre), c. now split.
Qed.

Lemma ends_before_app pre s rest :
  ends_before s rest -> ends_before (pre ++ s) rest.
Proof.
  induction pre as [| a pre IH]; intros H; [exact H |].
  cbn [app]. now apply ends_before_cons, IH.
Qed.

Lemma ends_before_here c rest : c <> BACKTICK -> ends_before (c :: rest) rest.
Proof. intros H. exists [], c. now split. Qed.

Lemma skip_ws_suffix s : exists w, s = w ++ Json.skip_ws s.
Proof.
  induction s as [| c s [w IH]]; [now exists [] |].
  cbn [Json.skip_ws]. destruct (Json.is_ws c).
  - exists (c :: w). cbn [app]. now f_equal.
  - now exists [].
Qed.

Lemma ends_before_skip_ws s rest :
  ends_before (Json.skip_ws s) rest -> ends_before s rest.
Proof.
  intros H. destruct (skip_ws_suffix s) as [w E]. rewrite E.
  now apply ends_before_app.
Qed.

Lemma digit_not_backtick c : Json.is_digit c = true -> c <> BACKTICK.
Proof. intros H ->. discriminate. Qed.

Lemma digit_end_ends body rest :
  digit_end body -> ends_before (body ++ rest) rest.
Proof.
  intros (pre & c & -> & Hc). exists pre, c. split.
  - now rewrite <- app_assoc.
  - now apply digit_not_backtick.
Qed.

Lemma digit_end_app x y : digit_end y -> digit_end (x ++ y).
Proof.
  intros (pre & c & -> & Hc). exists (x ++ pre), c. split; [| exact Hc].
  now rewrite app_assoc.
Qed.

Lemma digit_end_cons a y : digit_end y -> digit_end (a :: y).
Proof. apply (digit_end_app [a]). Qed.

Lemma digits_digit_end d :
  d <> [] -> forallb Json.is_digit d = true -> digit_end d.
Proof.
  intros Hne Hd. destruct (exists_last Hne) as (pre & c & ->).
  exists pre, c. split; [reflexivity |].
  rewrite forallb_app in Hd. apply andb_true_iff in Hd as [_ Hd].
  cbn [forallb] in Hd. now rewrite andb_true_r in Hd.
Qed.

Lemma span_digits_spec s d rest :
  Json.span_digits s = (d, rest) ->
  s = d ++ rest /\ forallb Json.is_digit d = true.
Proof.
  revert d rest. induction s as [| c s IH]; intros d rest H;
    cbn [Json.span_digits] in H.
  - inversion H; subst. now split.
  - destruct (Json.is_digit c) eqn:Hc.
    + destruct (Json.span_digits s) as [d' rest'].
      inversion H; subst. destruct (IH _ _ eq_refl) as [-> Hd].
      split; [reflexivity |]. cbn [forallb]. now rewrite Hc.
    + inversion H; subst. now split.
Qed.

Lemma scan_int_spec s ip rest :
  Json.scan_int s = Some (ip, rest) -> s = ip ++ rest /\ digit_end ip.
Proof.
  destruct s as [| c r]; cbn [Json.scan_int]; [discriminate |].
  destruct ((49 <=? c)%N && (c <=? 57)%N) eqn:E.
  - destruct (Json.span_digits r) as [d rest'] eqn:Es. intros H.
    inversion H; subst. apply span_digits_spec in Es as [-> Hd].
    split; [reflexivity |]. apply digits_digit_end; [discriminate |].
    cbn [forallb]. rewrite Hd, andb_true_r. unfold Json.is_digit.
    apply andb_true_iff in E as [E1 E2]. rewrite E2, andb_true_r.
    apply N.leb_le in E1. apply N.leb_le. lia.
  - destruct (N.eqb_spec c 48) as [-> |]; [| discriminate].
    intros H. inversion H; subst. split; [reflexivity |].
    exists [], 48%N. now split.
Qed.

Lemma scan_frac_spec s frac rest :
  Json.scan_frac s = (frac, rest) ->
  s = frac ++ rest /\ (frac = [] \/ digit_end frac).
Proof.
  unfold Json.scan_frac. destruct s as [| dot [| d r]].
  - intros H. inversion H. now split; [| left].
  - intros H. inversion H. now split; [| left].
  - destruct ((dot =? 46)%N && Json.is_digit d) eqn:E.
    + destruct (Json.span_digits (d :: r)) as [f rest'] eqn:Es. intros H.
      inversion H; subst. pose proof Es as Es'.
      apply span_digits_spec in Es as [Ef Hf].
      split; [cbn [app]; now f_equal |]. right. apply digit_end_cons.
      apply digits_digit_end; [| exact Hf].
      apply andb_true_iff in E as [_ Hd].
      cbn [Json.span_digits] in Es'. rewrite Hd in Es'.
      destruct (Json.span_digits r). inversion Es'. discriminate.
    + intros H. inversion H. now split; [| left].
Qed.

Lemma scan_exp_spec s exp rest :
  Json.scan_exp s = (exp, rest) ->
  s = exp ++ rest /\ (exp = [] \/ digit_end exp).
Proof.
  unfold Json.scan_exp. destruct s as [| e r].
  - intros H. inversion H. now split; [| left].
  - destruct ((e =? 101)%N || (e =? 69)%N).
    2:{ intros H. inversion H. now split; [| left]. }
    assert (Hsign : exists sign r', r = sign ++ r' /\
              match r with
              | sg :: t =>
                  if ((sg =? 43)%N || (sg =? 45)%N)%bool then ([sg], t)
                  else ([], r)
              | [] => ([], r)
              end = (sign, r')).
    { destruct r as [| sg t]; [now exists [], [] |].
      destruct ((sg =? 43)%N || (sg =? 45)%N).
      - now exists [sg], t.
      - now exists [], (sg :: t). }
    destruct Hsign as (sign & r' & Er & ->).
    destruct (Json.span_digits r') as [ed rest'] eqn:Es.
    apply span_digits_spec in Es as [-> Hd].
    destruct ed as [| x ed].
    + intros H. inversion H. now split; [| left].
    + intros H. inversion H; subst. split.
      * cbn [app]. f_equal. now rewrite <- app_assoc.
      * right. apply digit_end_cons, digit_end_app.
        apply digits_digit_end; [discriminate | exact Hd].
Qed.

(** A number ends with a digit. *)
Lemma match_number_ends s v rest :
  Json.match_number s = Some (v, rest) -> ends_before s rest.
Proof.
  unfold Json.match_number.
  set (p := match s with
            | c :: r => if (c =? 45)%N then (true, r) else (false, s)
            | [] => (false, [])
            end).
  assert (Hp : forall rest', ends_before (snd p) rest' -> ends_before s rest').
  { intros rest'. subst p. destruct s as [| c r]; [easy |].
    destruct (c =? 45)%N; cbn [snd]; [apply ends_before_cons | easy]. }
  destruct p as [neg s1]. cbn [snd] in Hp.
  destruct (Json.scan_int s1) as [[ip r1] |] eqn:Ei; [| discriminate].
  destruct (Json.scan_frac r1) as [frac r2] eqn:Ef.
  destruct (Json.scan_exp r2) as [exp r3] eqn:Ee.
  apply scan_int_spec in Ei as [-> Hip].
  apply scan_frac_spec in Ef as [-> Hfrac].
  apply scan_exp_spec in Ee as [-> Hexp].
  intros H. assert (rest = r3) by (destruct frac, exp; now inversion H).
  subst r3. apply Hp. clear H Hp.
  destruct Hexp as [-> | Hexp].
  - cbn [app]. destruct Hfrac as [-> | Hfrac].
    + cbn [app]. now apply digit_end_ends.
    + apply ends_before_app. now apply digit_end_ends.
  - do 2 apply ends_before_app. now apply digit_end_ends.
Qed.

(** A string ends with its closing quote. *)
Lemma scanstring_ends_bounded n : forall r t rest,
  List.length r <= n ->
  Json.scanstring r = Some (t, rest) -> ends_before r rest.
Proof.
  induction n as [| n IH]; intros r t rest Hlen H.
  - destruct r; [discriminate | cbn in Hlen; lia].
  - destruct r as [| c r0]; [discriminate |].
    cbn [List.length] in Hlen.
    assert (IH' : forall r' t', List.length r' <= List.length r0 ->
              Json.scanstring r' = Some (t', rest) -> ends_before r' rest)
      by (intros r' t' Hl; apply IH; lia).
    clear IH. cbn [Json.scanstring] in H. cbv zeta in H.
    destruct (c =? 34)%N eqn:E34.
    { inversion H; subst. apply N.eqb_eq in E34. subst c.
      apply ends_before_here. discriminate. }
    repeat (break_match_in H; try discriminate);
      try (inversion H; subst; clear H);
      repeat first
        [ match goal with
          | Hs : Json.scanstring ?r' = Some (_, ?rest')
            |- ends_before ?r' ?rest' =>
              eapply (IH' r'); [cbn [List.length]; lia | exact Hs]
          end
        | apply ends_before_cons ].
Qed.

Lemma scanstring_ends r t rest :
  Json.scanstring r = Some (t, rest) -> ends_before r rest.
Proof. apply (@scanstring_ends_bounded (List.length r)). lia. Qed.

Lemma after_spec word s rest :
  Json.after word s = Some rest -> s = lit word ++ rest.
Proof.
  unfold Json.after. destruct (startswith (lit word) s) eqn:E; [| discriminate].
  apply startswith_split in E as [r ->]. intros H. inversion H; subst.
  rewrite skipn_app, skipn_all, Nat.sub_diag. reflexivity.
Qed.

(** The six words of JSON end with a letter. *)
Lemma after_ends word s rest :
  In word ["null"; "true"; "false"; "NaN"; "Infinity"; "-Infinity"]%string ->
  Json.after word s = Some rest -> ends_before s rest.
Proof.
  intros Hw H. apply after_spec in H. subst s.
  assert (E : exists pre c, lit word = pre ++ [c] /\ c <> BACKTICK).
  { cbn [In] in Hw.
    destruct Hw as [<- | [<- | [<- | [<- | [<- | [<- | []]]]]]];
      cbn [lit];
      match goal with
      | |- exists pre c, ?l = _ /\ _ =>
          exists (removelast l), (last l 0%N); split;
          [reflexivity | discriminate]
      end. }
  destruct E as (pre & c & -> & Hc). exists pre, c.
  split; [now rewrite <- app_assoc | exact Hc].
Qed.

Lemma eqb_not_backtick c k :
  (c =? k)%N = true -> k <> BACKTICK -> c <> BACKTICK.
Proof. intros H Hk. apply N.eqb_eq in H. now subst. Qed.

(** A decoded value, the members of an object and the elements of an array
    all end with a character that is not a backtick. *)
Lemma scan_ends fuel :
  (forall s v rest,
      Json.scan_once fuel s = Some (v, rest) -> ends_before s rest)
  /\ (forall s acc d rest,
        Json.members fuel s acc = Some (d, rest) -> ends_before s rest)
  /\ (forall s vs rest,
        Json.elements fuel s = Some (vs, rest) -> ends_before s rest).
Proof.
  induction fuel as [| fuel (IHs & IHm & IHe)].
  - repeat split; intros; discriminate.
  - split; [| split].
    + (* one value *)
      intros s v rest H. cbn [Json.scan_once] in H.
      destruct s as [| c r]; [discriminate |].
      destruct (c =? 34)%N.
      { destruct (Json.scanstring r) as [[t rest'] |] eqn:E; [| discriminate].
        inversion H; subst. apply ends_before_cons.
        now apply scanstring_ends in E. }
      destruct (c =? 123)%N.
      { destruct (Json.skip_ws r) as [| c1 r1] eqn:E; [discriminate |].
        apply ends_before_cons, ends_before_skip_ws. rewrite E.
        destruct (c1 =? 125)%N eqn:E1.
        - inversion H; subst. apply ends_before_here.
          eapply eqb_not_backtick; [exact E1 | discriminate].
        - destruct (Json.members fuel (c1 :: r1) []) as [[d rest'] |] eqn:Em;
            [| discriminate].
          inversion H; subst. eapply IHm. exact Em. }
      destruct (c =? 91)%N.
      { destruct (Json.skip_ws r) as [| c1 r1] eqn:E; [discriminate |].
        apply ends_before_cons, ends_before_skip_ws. rewrite E.
        destruct (c1 =? 93)%N eqn:E1.
        - inversion H; subst. apply ends_before_here.
          eapply eqb_not_backtick; [exact E1 | discriminate].
        - destruct (Json.elements fuel (c1 :: r1)) as [[vs rest'] |] eqn:Ee;
            [| discriminate].
          inversion H; subst. eapply IHe. exact Ee. }
      match type of H with
      | match ?w with _ => _ end = _ => destruct w as [rest' |] eqn:Ew
      end.
      * inversion H; subst.
        repeat match type of Ew with
               | (if ?b then _ else _) = _ => destruct b
               end;
          try discriminate;
          (eapply after_ends; [| exact Ew]); cbn [In]; tauto.
      * now apply match_number_ends in H.
    + (* the members of an object *)
      intros s acc d rest H. cbn [Json.members] in H.
      destruct s as [| q r]; [discriminate |].
      destruct (q =? 34)%N; [| discriminate].
      destruct (Json.scanstring r) as [[key r1] |] eqn:Ek; [| discriminate].
      apply scanstring_ends in Ek. destruct Ek as (pre & cq & -> & _).
      apply ends_before_cons, ends_before_app, ends_before_cons.
      apply ends_before_skip_ws.
      destruct (Json.skip_ws r1) as [| colon r2]; [discriminate |].
      destruct (colon =? 58)%N; [| discriminate].
      apply ends_before_cons, ends_before_skip_ws.
      destruct (Json.scan_once fuel (Json.skip_ws r2)) as [[v r3] |] eqn:Ev;
        [| discriminate].
      apply IHs in Ev. destruct Ev as (pre' & cv & -> & Hcv).
      apply ends_before_app.
      destruct (Json.skip_ws r3) as [| c r4] eqn:E3; [discriminate |].
      destruct (c =? 125)%N eqn:E125.
      * inversion H; subst. apply ends_before_cons, ends_before_skip_ws.
        rewrite E3. apply ends_before_here.
        eapply eqb_not_backtick; [exact E125 | discriminate].
      * destruct (c =? 44)%N; [| discriminate].
        apply ends_before_cons, ends_before_skip_ws. rewrite E3.
        apply ends_before_cons, ends_before_skip_ws.
        eapply IHm. exact H.
    + (* the elements of an array *)
      intros s vs rest H. cbn [Json.elements] in H.
      destruct (Json.scan_once fuel s) as [[v r1] |] eqn:Ev; [| discriminate].
      apply IHs in Ev. destruct Ev as (pre & cv & -> & Hcv).
      apply ends_before_app.
      destruct (Json.skip_ws r1) as [| c r2] eqn:E1; [discriminate |].
      destruct (c =? 93)%N eqn:E93.
      * inversion H; subst. apply ends_before_cons, ends_before_skip_ws.
        rewrite E1. apply ends_before_here.
        eapply eqb_not_backtick; [exact E93 | discriminate].
      * destruct (c =? 44)%N; [| discriminate].
        destruct (Json.elements fuel (Json.skip_ws r2)) as [[vs' rest'] |] eqn:Ee;
          [| discriminate].
        inversion H; subst.
        apply ends_before_cons, ends_before_skip_ws. rewrite E1.
        apply ends_before_cons, ends_before_skip_ws.
        eapply IHe. exact Ee.
Qed.

Lemma scan_once_backtick fuel r : Json.scan_once fuel (BACKTICK :: r) = None.
Proof. destruct fuel; reflexivity. Qed.

Lemma last_app_cons (x y : str) (c d : char) :
  last (x ++ c :: y) d = last (c :: y) d.
Proof.
  induction x as [| a x IH]; [reflexivity |].
  cbn [app]. rewrite <- IH. cbn [last].
  destruct (x ++ c :: y) eqn:E; [| reflexivity].
  now destruct x.
Qed.

Lemma last_after_ws c rest :
  c <> BACKTICK -> Json.skip_ws rest = [] -> last (c :: rest) 0%N <> BACKTICK.
Proof.
  revert c. induction rest as [| c' rest IH]; intros c Hc H; [exact Hc |].
  cbn [Json.skip_ws] in H. destruct (Json.is_ws c') eqn:E; [| discriminate].
  change (last (c :: c' :: rest) 0%N) with (last (c' :: rest) 0%N).
  apply IH; [| exact H]. intros ->. discriminate.
Qed.

(** A text that [json.loads] decodes neither begins nor ends with a
    fence. *)
Lemma loads_no_fence s v :
  Json.loads s = Some v ->
  startswith FENCE s = false /\ endswith FENCE s = false.
Proof.
  unfold Json.loads. intros H.
  destruct (startswith [65279%N] s); [discriminate |].
  destruct (Json.scan_once _ (Json.skip_ws s)) as [[v' rest] |] eqn:E;
    [| discriminate].
  destruct (Json.skip_ws rest) eqn:Er; [| discriminate].
  split.
  - destruct (startswith FENCE s) eqn:Es; [| reflexivity].
    apply startswith_split in Es as [r ->].
    change (Json.skip_ws (FENCE ++ r)) with (BACKTICK :: BACKTICK :: BACKTICK :: r)
      in E.
    now rewrite scan_once_backtick in E.
  - destruct (endswith FENCE s) eqn:Es; [| reflexivity].
    apply endswith_split in Es as [x Ex].
    apply (proj1 (scan_ends _)) in E. apply ends_before_skip_ws in E.
    destruct E as (pre & c & E & Hc).
    assert (Hl : last s 0%N <> BACKTICK).
    { rewrite E, last_app_cons. now apply last_after_ws. }
    exfalso. apply Hl. rewrite Ex. apply (last_app_cons x [96; 96]%N).
Qed.

(** So a payload that decodes carries no fence of its own. *)
Lemma decoded_payload_unfenced payload v :
  Json.loads (strip payload) = Some v -> unfenced payload.
Proof. apply loads_no_fence. Qed.

(** ** Cleaning a reply *)

Lemma isspace_BACKTICK : isspace 96%N = false.
Proof. reflexivity. Qed.

Lemma fence_json_fence s :
  startswith FENCE_JSON s = true -> startswith FENCE s = true.
Proof.
  intros H. apply startswith_split in H as [r ->].
  change FENCE_JSON with (FENCE ++ lit "json"). rewrite <- app_assoc.
  apply startswith_app.
Qed.

(** A text that begins with a fence still does once stripped. *)
Lemma strip_keeps_fence_start s :
  startswith FENCE s = true -> startswith FENCE (strip s) = true.
Proof.
  intros H. apply startswith_split in H as [r ->].
  unfold strip. change (FENCE ++ r) with (96 :: 96 :: 96 :: r)%N.
  rewrite lstrip_nonspace by apply isspace_BACKTICK.
  rewrite !rstrip_nonspace_cons by apply isspace_BACKTICK. reflexivity.
Qed.

(** A text that ends with a fence still does once stripped. *)
Lemma strip_keeps_fence_end s :
  endswith FENCE s = true -> endswith FENCE (strip s) = true.
Proof.
  intros H. apply endswith_split in H as [x ->].
  unfold strip. change FENCE with (96 :: [96; 96])%N at 2.
  rewrite lstrip_app_nonspace by apply isspace_BACKTICK.
  assert (E : forall l : str,
             l ++ [96; 96; 96]%N = (l ++ [96; 96]%N) ++ [96%N])
    by (intros l; now rewrite <- app_assoc).
  rewrite E, rstrip_last_nonspace by apply isspace_BACKTICK.
  rewrite <- app_assoc. apply (endswith_app FENCE (lstrip x)).
Qed.

Lemma bool_false_of_contra (b b' : bool) :
  (b = true -> b' = true) -> b' = false -> b = false.
Proof. destruct b, b'; intuition congruence. Qed.

(** What is left of a reply that carries no fence. *)
Lemma response_text_unfenced payload :
  unfenced payload -> response_text payload = strip payload.
Proof.
  intros [Hs He]. unfold response_text. rewrite Hs.
  rewrite (bool_false_of_contra (@fence_json_fence (strip payload)) Hs).
  rewrite He. apply strip_idem.
Qed.

Lemma lstrip_fence (s : str) : lstrip (FENCE ++ s) = FENCE ++ s.
Proof. reflexivity. Qed.

Lemma rstrip_fence (s : str) : rstrip (s ++ FENCE) = s ++ FENCE.
Proof.
  assert (E : forall l : str, l ++ FENCE = (l ++ [96; 96]%N) ++ [96%N])
    by (intros l; now rewrite <- app_assoc).
  rewrite E. apply rstrip_last_nonspace, isspace_BACKTICK.
Qed.

Lemma fenced_assoc (before tag payload after : str) :
  fenced before tag payload after =
  before ++ ((FENCE ++ tag ++ NL :: payload ++ [NL]) ++ FENCE) ++ after.
Proof.
  unfold fenced.
  repeat (rewrite <- app_assoc || rewrite <- app_comm_cons). reflexivity.
Qed.

Lemma strip_fenced before tag payload after :
  blank before -> blank after ->
  strip (fenced before tag payload after) =
  FENCE ++ tag ++ NL :: payload ++ NL :: FENCE.
Proof.
  intros Hb Ha. unfold strip. rewrite fenced_assoc.
  rewrite lstrip_spaces_app by exact Hb.
  rewrite <- (app_assoc FENCE), <- (app_assoc FENCE), lstrip_fence.
  rewrite !app_assoc, rstrip_app_spaces by exact Ha.
  rewrite rstrip_fence.
  repeat (rewrite <- app_assoc || rewrite <- app_comm_cons). reflexivity.
Qed.

Lemma one_line_app a b : one_line a -> one_line b -> one_line (a ++ b).
Proof.
  unfold one_line. intros Ha Hb. rewrite forallb_app.
  apply andb_true_iff. now split.
Qed.

(** The lines of a fenced reply: the opening fence, the lines of the
    payload, the closing fence. *)
Lemma lines_fenced tag payload :
  one_line tag ->
  split_on NL (FENCE ++ tag ++ NL :: payload ++ NL :: FENCE) =
  (FENCE ++ tag) :: split_on NL payload ++ [FENCE].
Proof.
  intros Ht.
  replace (FENCE ++ tag ++ NL :: payload ++ NL :: FENCE)
    with ((FENCE ++ tag) ++ NL :: payload ++ NL :: FENCE)
    by now rewrite <- app_assoc.
  rewrite !split_on_app.
  rewrite (@split_on_one_line NL (FENCE ++ tag))
    by (apply one_line_app; [reflexivity | exact Ht]).
  rewrite (@split_on_one_line NL FENCE) by reflexivity.
  reflexivity.
Qed.

(** What is left of a fenced reply: the payload, stripped. *)
Lemma response_text_fenced before tag payload after :
  blank before -> blank after -> one_line tag -> unfenced payload ->
  response_text (fenced before tag payload after) = strip payload.
Proof.
  intros Hb Ha Ht [Hs He]. unfold response_text.
  rewrite strip_fenced by assumption.
  rewrite startswith_app.
  rewrite lines_fenced by exact Ht.
  match goal with
  | |- context [Nat.ltb 2 ?n] => replace (Nat.ltb 2 n) with true
  end.
  2:{ symmetry. apply Nat.ltb_lt. cbn [List.length]. rewrite length_app.
      cbn [List.length].
      destruct (split_on NL payload) eqn:E;
        [now apply split_on_not_nil in E | cbn [List.length]; lia]. }
  rewrite inner_lines_between, join_split_on.
  rewrite (bool_false_of_contra
             (fun H => @strip_keeps_fence_start payload
                         (@fence_json_fence payload H)) Hs).
  rewrite (bool_false_of_contra (@strip_keeps_fence_end payload) He).
  reflexivity.
Qed.

(** A fenced reply and its payload are cleaned to the same text, whether
    the payload decodes or not, as long as the payload carries no fence of
    its own. *)
Lemma fenced_cleaned_like_plain before tag payload after :
  blank before -> blank after -> one_line tag -> unfenced payload ->
  response_text (fenced before tag payload after) = response_text payload.
Proof.
  intros. rewrite response_text_fenced by assumption.
  now rewrite response_text_unfenced.
Qed.

(** ** Dictionaries *)

Lemma str_eqb_eq a b : str_eqb a b = true <-> a = b.
Proof.
  unfold str_eqb. destruct (str_eq_dec a b); split; congruence.
Qed.

Lemma str_eqb_neq a b : str_eqb a b = false <-> a <> b.
Proof.
  unfold str_eqb. destruct (str_eq_dec a b); split; congruence.
Qed.

Lemma str_eqb_refl a : str_eqb a a = true.
Proof. now apply str_eqb_eq. Qed.

Section DictFacts.
Variable V : Type.
Implicit Types (d : PyDict.dict V) (k : str) (v : V).

Lemma get_None_not_in k d :
  PyDict.get k d = None <-> ~ In k (PyDict.keys d).
Proof.
  induction d as [| [k' v'] r IH]; cbn [PyDict.get PyDict.keys map fst In].
  - tauto.
  - destruct (str_eqb k' k) eqn:E.
    + apply str_eqb_eq in E. split; [discriminate | tauto].
    + apply str_eqb_neq in E. fold (PyDict.keys r). tauto.
Qed.

Lemma get_Some_in k v d : PyDict.get k d = Some v -> In k (PyDict.keys d).
Proof.
  intros H. destruct (in_dec str_eq_dec k (PyDict.keys d)) as [Hi | Hn];
    [exact Hi |].
  apply get_None_not_in in Hn. congruence.
Qed.

(** Assigning to a new key appends it. *)
Lemma set_fresh k v d :
  ~ In k (PyDict.keys d) -> PyDict.set k v d = d ++ [(k, v)].
Proof.
  induction d as [| [k' v'] r IH]; cbn [PyDict.set PyDict.keys map fst In app];
    intros H; [reflexivity |].
  destruct (str_eqb k' k) eqn:E.
  - apply str_eqb_eq in E. tauto.
  - rewrite IH by tauto. reflexivity.
Qed.

(** Assigning to a key leaves the keys as they are when it is there. *)
Lemma keys_set_in k v d :
  In k (PyDict.keys d) -> PyDict.keys (PyDict.set k v d) = PyDict.keys d.
Proof.
  induction d as [| [k' v'] r IH]; cbn [PyDict.set PyDict.keys map fst In];
    intros H; [tauto |].
  destruct (str_eqb k' k) eqn:E; [reflexivity |].
  apply str_eqb_neq in E. cbn [map fst]. f_equal. apply IH. tauto.
Qed.

Lemma keys_set_fresh k v d :
  ~ In k (PyDict.keys d) ->
  PyDict.keys (PyDict.set k v d) = PyDict.keys d ++ [k].
Proof.
  intros H. rewrite set_fresh by exact H.
  unfold PyDict.keys. now rewrite map_app.
Qed.

Lemma set_app_in k v d d' :
  In k (PyDict.keys d) -> PyDict.set k v (d ++ d') = PyDict.set k v d ++ d'.
Proof.
  induction d as [| [k' v'] r IH]; cbn [PyDict.set PyDict.keys map fst In app];
    intros H; [tauto |].
  destruct (str_eqb k' k) eqn:E; [reflexivity |].
  apply str_eqb_neq in E. rewrite IH by tauto. reflexivity.
Qed.

Lemma wf_set k v d : PyDict.wf d -> PyDict.wf (PyDict.set k v d).
Proof.
  unfold PyDict.wf. intros H.
  destruct (in_dec str_eq_dec k (PyDict.keys d)) as [Hi | Hn].
  - now rewrite keys_set_in.
  - rewrite keys_set_fresh by exact Hn.
    apply NoDup_app; [exact H | repeat constructor; intros [] |].
    intros x Hx [<- | []]. tauto.
Qed.
End DictFacts.

(** ** The decoder: dicts with distinct keys *)

Lemma json_wf_arr l : json_wf (JArr l) <-> Forall json_wf l.
Proof.
  cbn [json_wf]. induction l as [| x r IH].
  - split; constructor.
  - split.
    + intros [Hx Hr]. constructor; [exact Hx | now apply IH].
    + intros H. inversion H; subst. split; [assumption | now apply IH].
Qed.

Lemma json_wf_obj d :
  json_wf (JObj d) <->
  PyDict.wf d /\ Forall (fun kv => json_wf (snd kv)) d.
Proof.
  cbn [json_wf]. unfold PyDict.wf, PyDict.keys.
  apply and_iff_compat_l. induction d as [| [k x] r IH].
  - split; constructor.
  - split.
    + intros [Hx Hr]. constructor; [exact Hx | now apply IH].
    + intros H. inversion H; subst. split; [assumption | now apply IH].
Qed.

Lemma set_values (P : json -> Prop) k v (d : PyDict.dict json) :
  P v -> Forall (fun kv => P (snd kv)) d ->
  Forall (fun kv => P (snd kv)) (PyDict.set k v d).
Proof.
  intros Hv. induction 1 as [| [k' v'] r Hkv Hr IH]; cbn [PyDict.set].
  - repeat constructor. exact Hv.
  - destruct (str_eqb k' k); constructor; auto.
Qed.

Lemma match_number_wf s v rest :
  Json.match_number s = Some (v, rest) -> json_wf v.
Proof.
  unfold Json.match_number.
  destruct (match s with
            | c :: r => if (c =? 45)%N then (true, r) else (false, s)
            | [] => (false, [])
            end) as [neg s1].
  destruct (Json.scan_int s1) as [[ip r1] |]; [| discriminate].
  destruct (Json.scan_frac r1) as [frac r2].
  destruct (Json.scan_exp r2) as [exp r3].
  intros H. destruct frac, exp; inversion H; exact I.
Qed.

(** What the decoder builds is well formed. *)
Lemma scan_wf fuel :
  (forall s v rest, Json.scan_once fuel s = Some (v, rest) -> json_wf v)
  /\ (forall s acc d rest,
        Json.members fuel s acc = Some (d, rest) ->
        json_wf (JObj acc) -> json_wf (JObj d))
  /\ (forall s vs rest,
        Json.elements fuel s = Some (vs, rest) -> Forall json_wf vs).
Proof.
  induction fuel as [| fuel (IHs & IHm & IHe)].
  - repeat split; intros; discriminate.
  - split; [| split].
    + intros s v rest H. cbn [Json.scan_once] in H.
      destruct s as [| c r]; [discriminate |].
      destruct (c =? 34)%N.
      { destruct (Json.scanstring r) as [[t rest'] |]; [| discriminate].
        inversion H. exact I. }
      destruct (c =? 123)%N.
      { destruct (Json.skip_ws r) as [| c1 r1]; [discriminate |].
        destruct (c1 =? 125)%N.
        - inversion H. apply json_wf_obj. split; constructor.
        - destruct (Json.members fuel (c1 :: r1) []) as [[d rest'] |] eqn:Em;
            [| discriminate].
          inversion H; subst. eapply IHm; [exact Em |].
          apply json_wf_obj. split; constructor. }
      destruct (c =? 91)%N.
      { destruct (Json.skip_ws r) as [| c1 r1]; [discriminate |].
        destruct (c1 =? 93)%N.
        - inversion H. apply json_wf_arr. constructor.
        - destruct (Json.elements fuel (c1 :: r1)) as [[vs rest'] |] eqn:Ee;
            [| discriminate].
          inversion H; subst. apply json_wf_arr. eapply IHe. exact Ee. }
      match type of H with
      | match ?w with _ => _ end = _ => destruct w as [rest' |]
      end.
      * inversion H.
        repeat match goal with
               | |- json_wf (if ?b then _ else _) => destruct b
               end; exact I.
      * now apply match_number_wf in H.
    + intros s acc d rest H Hacc. cbn [Json.members] in H.
      destruct s as [| q r]; [discriminate |].
      destruct (q =? 34)%N; [| discriminate].
      destruct (Json.scanstring r) as [[key r1] |]; [| discriminate].
      destruct (Json.skip_ws r1) as [| colon r2]; [discriminate |].
      destruct (colon =? 58)%N; [| discriminate].
      destruct (Json.scan_once fuel (Json.skip_ws r2)) as [[v r3] |] eqn:Ev;
        [| discriminate].
      apply IHs in Ev.
      assert (Hacc' : json_wf (JObj (PyDict.set key v acc))).
      { apply json_wf_obj in Hacc as [Hk Hv]. apply json_wf_obj. split.
        - now apply wf_set.
        - now apply set_values. }
      destruct (Json.skip_ws r3) as [| c r4]; [discriminate |].
      destruct (c =? 125)%N.
      * inversion H; subst. exact Hacc'.
      * destruct (c =? 44)%N; [| discriminate].
        eapply IHm; [exact H | exact Hacc'].
    + intros s vs rest H. cbn [Json.elements] in H.
      destruct (Json.scan_once fuel s) as [[v r1] |] eqn:Ev; [| discriminate].
      apply IHs in Ev.
      destruct (Json.skip_ws r1) as [| c r2]; [discriminate |].
      destruct (c =? 93)%N.
      * inversion H; subst. now repeat constructor.
      * destruct (c =? 44)%N; [| discriminate].
        destruct (Json.elements fuel (Json.skip_ws r2)) as [[vs' rest'] |] eqn:Ee;
          [| discriminate].
        inversion H; subst. constructor; [exact Ev | eapply IHe; exact Ee].
Qed.

Lemma loads_wf s v : Json.loads s = Some v -> json_wf v.
Proof.
  unfold Json.loads. destruct (startswith [65279%N] s); [discriminate |].
  destruct (Json.scan_once _ (Json.skip_ws s)) as [[v' rest] |] eqn:E;
    [| discriminate].
  destruct (Json.skip_ws rest); [| discriminate].
  intros H. inversion H; subst. eapply (proj1 (scan_wf _)). exact E.
Qed.

(** The records of a decoded reply are well formed: a record that is a dict
    has distinct keys. *)
Lemma decoded_records_wf s parsed entry :
  Json.loads s = Some parsed -> In (JObj entry) (records parsed) ->
  PyDict.wf entry.
Proof.
  intros Hl Hin. apply loads_wf in Hl.
  destruct parsed as [| | | | | | d]; try easy.
  cbn [records] in Hin.
  destruct (PyDict.get ENTRIES d) as [[| | | | | l |] |] eqn:Eg; try easy.
  apply json_wf_obj in Hl as [_ Hv].
  assert (Hw : json_wf (JArr l)).
  { clear -Hv Eg. induction Hv as [| [k x] r Hkx Hr IH]; [discriminate |].
    cbn [PyDict.get] in Eg. destruct (str_eqb k ENTRIES).
    - inversion Eg; subst. exact Hkx.
    - now apply IH. }
  apply json_wf_arr in Hw. rewrite Forall_forall in Hw.
  apply Hw in Hin. now apply json_wf_obj in Hin as [Hin _].
Qed.

(** ** The [verify] insertion *)

Lemma rebuild_fold head entry :
  rebuild head entry =
  fold_left refill entry [(HEAD, head); (VERIFY, JBool false)].
Proof. reflexivity. Qed.

(** The refilling loop, from any [new_entry] that has a [verify] already:
    the value of [verify] is overwritten where it stands and every other
    field but [head] is appended. *)
Lemma refill_all (entry new_entry : PyDict.dict json) :
  PyDict.wf entry ->
  In VERIFY (PyDict.keys new_entry) ->
  (forall k, In k (PyDict.keys entry) -> k <> HEAD -> k <> VERIFY ->
             ~ In k (PyDict.keys new_entry)) ->
  fold_left refill entry new_entry =
  match PyDict.get VERIFY entry with
  | Some v => PyDict.set VERIFY v new_entry
  | None => new_entry
  end ++ without_head_verify entry.
Proof.
  unfold PyDict.wf. revert new_entry.
  induction entry as [| [k v] r IH]; intros acc Hwf Hv Hfresh.
  - cbn. now rewrite app_nil_r.
  - cbn [PyDict.keys map fst] in Hwf. fold (PyDict.keys r) in Hwf.
    apply NoDup_cons_iff in Hwf as [Hk Hr].
    cbn [fold_left PyDict.get without_head_verify filter fst].
    fold (without_head_verify r).
    unfold refill at 2. cbn [fst snd].
    destruct (str_eqb k HEAD) eqn:EH.
    + (* the head itself is passed over *)
      apply str_eqb_eq in EH. subst k. cbn [negb andb].
      replace (str_eqb HEAD VERIFY) with false by reflexivity.
      apply IH; [exact Hr | exact Hv |].
      intros k Hin. apply Hfresh. now right.
    + apply str_eqb_neq in EH. cbn [negb andb].
      destruct (str_eqb k VERIFY) eqn:EV.
      * (* an original verify overwrites the inserted one *)
        apply str_eqb_eq in EV. subst k. cbn [negb].
        rewrite IH.
        -- apply get_None_not_in in Hk. now rewrite Hk.
        -- exact Hr.
        -- now rewrite keys_set_in.
        -- intros k Hin ? ?. rewrite keys_set_in by exact Hv.
           apply Hfresh; [now right | assumption | assumption].
      * apply str_eqb_neq in EV. cbn [negb].
        assert (Hacc : ~ In k (PyDict.keys acc))
          by (apply Hfresh; [now left | assumption | assumption]).
        rewrite set_fresh by exact Hacc.
        rewrite IH.
        -- destruct (PyDict.get VERIFY r) as [v' |].
           ++ rewrite set_app_in by exact Hv. now rewrite <- app_assoc.
           ++ now rewrite <- app_assoc.
        -- exact Hr.
        -- unfold PyDict.keys. rewrite map_app. apply in_or_app. now left.
        -- intros k' Hin ? ?. unfold PyDict.keys. rewrite map_app.
           intros Hin'. apply in_app_or in Hin' as [Hin' | [<- | []]].
           ++ revert Hin'. apply Hfresh; [now right | assumption | assumption].
           ++ exact (Hk Hin).
Qed.

Lemma rebuild_spec head (entry : PyDict.dict json) :
  PyDict.wf entry ->
  rebuild head entry =
  (HEAD, head)
  :: (VERIFY, match PyDict.get VERIFY entry with
              | Some v => v
              | None => JBool false
              end)
  :: without_head_verify entry.
Proof.
  intros Hwf. rewrite rebuild_fold, refill_all.
  - destruct (PyDict.get VERIFY entry); reflexivity.
  - exact Hwf.
  - cbn [PyDict.keys map fst In]. tauto.
  - intros k _ H1 H2. cbn [PyDict.keys map fst In].
    intros [E | [E | []]]; congruence.
Qed.

Lemma without_head_verify_no_verify (entry : PyDict.dict json) :
  PyDict.get VERIFY entry = None ->
  without_head_verify entry = without_head entry.
Proof.
  unfold without_head_verify, without_head.
  induction entry as [| [k v] r IH]; [reflexivity |].
  cbn [PyDict.get filter fst].
  destruct (str_eqb k VERIFY) eqn:E; [discriminate |].
  intros H. rewrite IH by exact H. cbn [negb]. now rewrite andb_true_r.
Qed.

(** ** Keys in order of first appearance *)

Lemma keys_set (V : Type) k (v : V) (d : PyDict.dict V) :
  PyDict.keys (PyDict.set k v d) = add_key (PyDict.keys d) k.
Proof.
  unfold add_key. destruct (in_dec str_eq_dec k (PyDict.keys d)).
  - now apply keys_set_in.
  - now apply keys_set_fresh.
Qed.

Lemma add_keys_In x l : forall ks,
  In x (fold_left add_key l ks) <-> In x ks \/ In x l.
Proof.
  induction l as [| k l IH]; intros ks; cbn [fold_left In]; [tauto |].
  rewrite IH. unfold add_key.
  destruct (in_dec str_eq_dec k ks) as [Hi | Hn].
  - split; [tauto |]. intros [H | [<- | H]]; tauto.
  - rewrite in_app_iff. cbn [In]. tauto.
Qed.

Lemma add_keys_NoDup l : forall ks,
  NoDup ks -> NoDup (fold_left add_key l ks).
Proof.
  induction l as [| k l IH]; intros ks H; cbn [fold_left]; [exact H |].
  apply IH. unfold add_key.
  destruct (in_dec str_eq_dec k ks) as [Hi | Hn]; [exact H |].
  apply NoDup_app; [exact H | repeat constructor; intros [] |].
  intros x Hx [<- | []]. tauto.
Qed.

(** Without a repetition, the keys are the texts in their order. *)
Lemma add_keys_distinct l : forall ks,
  NoDup (ks ++ l) -> fold_left add_key l ks = ks ++ l.
Proof.
  induction l as [| k l IH]; intros ks H; cbn [fold_left].
  - now rewrite app_nil_r.
  - assert (Hn : ~ In k ks).
    { apply NoDup_remove_2 in H. intros Hi. apply H.
      apply in_or_app. now left. }
    unfold add_key. destruct (in_dec str_eq_dec k ks); [tauto |].
    rewrite IH; rewrite <- app_assoc; [reflexivity | exact H].
Qed.

Lemma add_keys_length l : forall ks,
  List.length (fold_left add_key l ks) <= List.length ks + List.length l.
Proof.
  induction l as [| k l IH]; intros ks; cbn [fold_left List.length]; [lia |].
  specialize (IH (add_key ks k)). unfold add_key in *.
  destruct (in_dec str_eq_dec k ks); [lia |].
  rewrite length_app in IH. cbn [List.length] in IH. lia.
Qed.

Lemma add_keys_app l1 l2 ks :
  fold_left add_key (l1 ++ l2) ks = fold_left add_key l2 (fold_left add_key l1 ks).
Proof. apply fold_left_app. Qed.

(** A text that comes twice takes one place only. *)
Lemma add_keys_repeated_length l1 l2 l3 t :
  List.length (first_appearances (l1 ++ t :: l2 ++ t :: l3))
  < List.length (l1 ++ t :: l2 ++ t :: l3).
Proof.
  unfold first_appearances.
  replace (l1 ++ t :: l2 ++ t :: l3) with ((l1 ++ t :: l2) ++ t :: l3)
    by (rewrite <- app_assoc; reflexivity).
  rewrite add_keys_app. cbn [fold_left].
  set (ks := fold_left add_key (l1 ++ t :: l2) []).
  assert (Hin : In t ks).
  { apply add_keys_In. right. apply in_or_app. right. now left. }
  assert (Hlen : List.length ks <= List.length (l1 ++ t :: l2))
    by apply (add_keys_length (l1 ++ t :: l2) []).
  unfold add_key at 2. destruct (in_dec str_eq_dec t ks); [| tauto].
  pose proof (add_keys_length l3 ks) as H3.
  rewrite length_app. cbn [List.length]. lia.
Qed.

(** Two places of a list that hold the same text. *)
Lemma nth_error_twice (l : list str) i j t :
  i < j -> nth_error l i = Some t -> nth_error l j = Some t ->
  exists l1 l2 l3, l = l1 ++ t :: l2 ++ t :: l3.
Proof.
  intros Hij Hi Hj.
  apply nth_error_split in Hi as (l1 & r & -> & Hlen).
  rewrite nth_error_app2 in Hj by lia.
  destruct (j - List.length l1) as [| m] eqn:E; [lia |].
  cbn [nth_error] in Hj.
  apply nth_error_split in Hj as (l2 & l3 & -> & _).
  now exists l1, l2, l3.
Qed.

(** ** The loops of [main] *)

Lemma correct_loop_keys c : forall slokas log corrected_data,
  PyDict.keys (fst (correct_loop c log slokas corrected_data)) =
  fold_left add_key (corrected_texts c (List.length log) slokas)
    (PyDict.keys corrected_data).
Proof.
  induction slokas as [| sloka rest IH]; intros log d; [reflexivity |].
  cbn [correct_loop corrected_texts fold_left].
  rewrite IH, keys_set, length_app. cbn [List.length].
  now rewrite Nat.add_1_r.
Qed.

Lemma correct_loop_values c : forall slokas log corrected_data,
  Forall (fun kv => snd kv = JObj []) corrected_data ->
  Forall (fun kv => snd kv = JObj [])
    (fst (correct_loop c log slokas corrected_data)).
Proof.
  induction slokas as [| sloka rest IH]; intros log d H; [exact H |].
  cbn [correct_loop]. apply IH.
  set (k := normalize _). clearbody k. clear -H.
  induction H as [| [k' v'] r Hv Hr IHr]; cbn [PyDict.set].
  - repeat constructor.
  - destruct (str_eqb k' k); constructor; auto.
Qed.

Lemma correct_loop_log c : forall slokas log corrected_data,
  snd (correct_loop c log slokas corrected_data) =
  log ++ map correction_request slokas.
Proof.
  induction slokas as [| sloka rest IH]; intros log d; cbn [correct_loop map].
  - now rewrite app_nil_r.
  - rewrite IH, <- app_assoc. reflexivity.
Qed.

Lemma enrich_loop_keys c : forall items log enriched_data final_data log',
  enrich_loop c log items enriched_data = (Ok final_data, log') ->
  PyDict.keys final_data =
  fold_left add_key (PyDict.keys items) (PyDict.keys enriched_data).
Proof.
  induction items as [| [sloka x] rest IH]; intros log d fd log' H.
  - cbn in H. now inversion H.
  - cbn [enrich_loop] in H.
    destruct (add_verify _) as [parsed' | e]; [| discriminate].
    apply IH in H. rewrite H, keys_set. reflexivity.
Qed.

Lemma first_appearances_fixed l :
  NoDup l -> first_appearances l = l.
Proof. intros H. now apply (add_keys_distinct l []). Qed.

Lemma first_appearances_NoDup l : NoDup (first_appearances l).
Proof. apply add_keys_NoDup. constructor. Qed.

(** The keys of the document of a run that ends well. *)
Lemma main_keys c yaml_data skip_enrichment final_data log :
  main c yaml_data skip_enrichment = (Ok final_data, log) ->
  PyDict.keys final_data = first_appearances (corrected_texts c 0 yaml_data).
Proof.
  unfold main.
  pose proof (correct_loop_keys c yaml_data [] []) as Hk.
  destruct (correct_loop c [] yaml_data []) as [corrected_data log0].
  cbn [fst List.length] in Hk.
  change (PyDict.keys (@nil (str * json))) with (@nil str) in Hk.
  fold (first_appearances (corrected_texts c 0 yaml_data)) in Hk.
  destruct skip_enrichment; intros H.
  - inversion H; subst. exact Hk.
  - apply enrich_loop_keys in H. rewrite H, Hk.
    apply (add_keys_distinct _ []). apply first_appearances_NoDup.
Qed.

(** An entry with a [head] and no [verify] of its own gets
    [verify: false] right after [head], then its other fields in their
    order; an entry without [head] is left as it is. *)
Lemma reorder_entry_field_order (entry : PyDict.dict json) :
  PyDict.wf entry ->
  (forall head,
      PyDict.get HEAD entry = Some head ->
      PyDict.get VERIFY entry = None ->
      reorder_entry (JObj entry) =
      Ok (JObj ((HEAD, head) :: (VERIFY, JBool false) :: without_head entry)))
  /\ (PyDict.get HEAD entry = None ->
      reorder_entry (JObj entry) = Ok (JObj entry)).
Proof.
  intros Hwf. split.
  - intros head Hh Hv. cbn [reorder_entry]. rewrite Hh.
    rewrite rebuild_spec by exact Hwf. rewrite Hv.
    now rewrite without_head_verify_no_verify.
  - intros Hh. cbn [reorder_entry]. now rewrite Hh.
Qed.


(** A parsing call that raises, or whose message has no text, is no
    obstacle to the run. *)
Lemma failed_parse_is_harmless sloka (create : request -> reply) e :
  first_text (create (parsing_request sloka)) = Raise e ->
  add_verify (parse_sloka_with_claude sloka create) = Ok no_entries.
Proof.
  intros H. unfold parse_sloka_with_claude. now rewrite H.
Qed.




Lemma no_entries_well_shaped : well_shaped no_entries = true.
Proof. reflexivity. Qed.

(** ** Claims *)

(** C1. A reply that decodes to a JSON array ends the run: with two units
    and the first parse answered by an empty array, [main] raises
    [AttributeError] after three calls; the second unit is never parsed and
    nothing is written. *)
Theorem array_reply_aborts_run :
  main (parses_first_with 2 (lit "[]") (txt "{'entries': []}"))
       [lit "a"; lit "b"] false
  = (Raise AttributeError,
     [correction_request (lit "a"); correction_request (lit "b");
      parsing_request (lit "a")]).
Proof. vm_compute. reflexivity. Qed.

(** C2. When the call of the correction oracle raises,
    [correct_sloka_with_claude] raises nothing and returns the text of the
    unit as it is; the stage result stored by [main] is that text
    normalised. *)
Theorem correction_falls_back_to_original
    (sloka : str) (create : request -> reply) (e : exn) :
  create (correction_request sloka) = Fails e ->
  correct_sloka_with_claude sloka create = sloka
  /\ correct_stage sloka create = normalize sloka.
Proof.
  intros H. unfold correct_stage, correct_sloka_with_claude.
  rewrite H. cbn [first_text]. split; reflexivity.
Qed.

Lemma correction_falls_back_to_original_witness :
  correct_sloka_with_claude [65; DANDA; DANDA]%N (down 0) = [65; DANDA; DANDA]%N
  /\ correct_stage [65; DANDA; DANDA]%N (down 0) = normalize [65; DANDA; DANDA]%N.
Proof.
  apply (@correction_falls_back_to_original
           [65; DANDA; DANDA]%N (down 0) OracleError).
  reflexivity.
Defined.

(** C2, as stated, fails: a unit that ends in a doubled single danda and
    whose correction raises leaves the stage with the double danda. *)
Lemma correction_fallback_is_normalized :
  down 0 (correction_request [65; DANDA; DANDA]%N) = Fails OracleError
  /\ correct_stage [65; DANDA; DANDA]%N (down 0) = [65; DDANDA]%N
  /\ correct_stage [65; DANDA; DANDA]%N (down 0) <> [65; DANDA; DANDA]%N.
Proof.
  split; [reflexivity |]. split; [reflexivity |]. discriminate.
Qed.

(** C3. A reply whose text, once cleaned of fences and whitespace, does not
    decode as JSON makes the enrichment stage raise nothing and return no
    record: the payload is [{"entries": []}]. *)
Theorem undecodable_reply_gives_no_records
    (sloka text : str) (more : list block) (create : request -> reply) :
  create (parsing_request sloka) = Message (TextBlock text :: more) ->
  Json.loads (response_text text) = None ->
  parse_sloka_with_claude sloka create = no_entries
  /\ enrich_stage sloka create = Ok no_entries
  /\ records no_entries = [].
Proof.
  intros Hc Hl. unfold enrich_stage, parse_sloka_with_claude.
  rewrite Hc. cbn [first_text]. rewrite Hl. repeat split; reflexivity.
Qed.

Lemma undecodable_reply_gives_no_records_witness :
  parse_sloka_with_claude (lit "a")
    (parses_with (txt "Sorry, I cannot parse this.") 0) = no_entries
  /\ enrich_stage (lit "a")
       (parses_with (txt "Sorry, I cannot parse this.") 0) = Ok no_entries
  /\ records no_entries = [].
Proof.
  apply (@undecodable_reply_gives_no_records
           (lit "a") (txt "Sorry, I cannot parse this.") []
           (parses_with (txt "Sorry, I cannot parse this.") 0)).
  - reflexivity.
  - vm_compute. reflexivity.
Defined.



(** The same holds with no language tag and no whitespace around. *)
Example fenced_without_tag :
  enrich_stage (lit "a")
    (fun _ => Message [TextBlock (txt "```|{'entries': [{'head': 'x'}]}|```")])
  = Ok (JObj [(ENTRIES,
               JArr [JObj [(HEAD, JStr (lit "x")); (VERIFY, JBool false)]])]).
Proof. vm_compute. reflexivity. Qed.

(** C5. The normalisation of the correction stage (line feeds to spaces,
    runs of whitespace to one space, a doubled single danda to the double
    danda) is idempotent: normalising a normalised text gives it back. *)
Theorem normalize_idempotent (s : str) :
  normalize (normalize s) = normalize s.
Proof.
  unfold normalize at 2.
  set (ws := split_ws (replace [NL] [SP] s)).
  assert (Hws : Forall word ws) by apply split_ws_words.
  rewrite rewrite_dd_join.
  rewrite normalize_joined.
  - rewrite <- rewrite_dd_join. apply rewrite_dd_idem.
  - clear -Hws. induction Hws as [| w l Hw Hl IH]; constructor.
    + now apply rewrite_dd_word.
    + exact IH.
Qed.

(** C6. The field order after the [verify] insertion is not always
    [head], [verify: false], the other fields: an entry that the oracle
    sends with a [verify] of its own keeps that value, here [true]. *)
Theorem reorder_entry_verify_not_false :
  enrich_stage (lit "a")
    (parses_with
       (txt "{'entries': [{'head': 'x', 'verify': true, 'gender': 'm'}]}") 0)
  = Ok (JObj [(ENTRIES,
               JArr [JObj [(HEAD, JStr (lit "x")); (VERIFY, JBool true);
                           (lit "gender", JStr (lit "m"))]])])
  /\ reorder_entry
       (JObj [(HEAD, JStr (lit "x")); (VERIFY, JBool true);
              (lit "gender", JStr (lit "m"))])
     = Ok (JObj [(HEAD, JStr (lit "x")); (VERIFY, JBool true);
                 (lit "gender", JStr (lit "m"))])
  /\ reorder_entry
       (JObj [(HEAD, JStr (lit "x")); (VERIFY, JBool true);
              (lit "gender", JStr (lit "m"))])
     <> Ok (JObj ((HEAD, JStr (lit "x")) :: (VERIFY, JBool false)
                  :: without_head
                       [(HEAD, JStr (lit "x")); (VERIFY, JBool true);
                        (lit "gender", JStr (lit "m"))])).
Proof.
  split; [vm_compute; reflexivity |]. split; [reflexivity | discriminate].
Qed.

(** C7. A reply that decodes to an object without an [entries] key is
    stored as it is: the stage raises nothing, [main] puts that object
    under the verse and goes on, and the payload holds no kosha record. *)
Theorem object_without_entries_has_no_records
    (c : client) (log : list request) (sloka text : str)
    (more : list block) (fields : PyDict.dict json) (old : json)
    (rest : list (str * json)) (enriched_data : PyDict.dict json) :
  c (List.length log) (parsing_request sloka)
  = Message (TextBlock text :: more) ->
  Json.loads (response_text text) = Some (JObj fields) ->
  PyDict.get ENTRIES fields = None ->
  enrich_stage sloka (c (List.length log)) = Ok (JObj fields)
  /\ records (JObj fields) = []
  /\ enrich_loop c log ((sloka, old) :: rest) enriched_data
     = enrich_loop c (log ++ [parsing_request sloka]) rest
         (PyDict.set sloka (JObj fields) enriched_data).
Proof.
  intros Hc Hl Hn.
  assert (Hp : parse_sloka_with_claude sloka (c (List.length log)) = JObj fields).
  { unfold parse_sloka_with_claude. rewrite Hc. cbn [first_text].
    now rewrite Hl. }
  assert (Ha : add_verify (JObj fields) = Ok (JObj fields)).
  { cbn [add_verify]. now rewrite Hn. }
  split; [| split].
  - unfold enrich_stage. now rewrite Hp.
  - cbn [records]. now rewrite Hn.
  - cbn [enrich_loop]. now rewrite Hp, Ha.
Qed.

Lemma object_without_entries_has_no_records_witness :
  enrich_stage (lit "a") (parses_with (txt "{'groups': [1]}") 0)
  = Ok (JObj [(lit "groups", JArr [JInt 1])])
  /\ records (JObj [(lit "groups", JArr [JInt 1])]) = []
  /\ enrich_loop (parses_with (txt "{'groups': [1]}")) []
       [(lit "a", JObj [])] []
     = enrich_loop (parses_with (txt "{'groups': [1]}"))
         ([] ++ [parsing_request (lit "a")]) []
         (PyDict.set (lit "a") (JObj [(lit "groups", JArr [JInt 1])]) []).
Proof.
  apply (@object_without_entries_has_no_records
           (parses_with (txt "{'groups': [1]}")) [] (lit "a")
           (txt "{'groups': [1]}") [] [(lit "groups", JArr [JInt 1])]
           (JObj []) [] []).
  - reflexivity.
  - vm_compute. reflexivity.
  - reflexivity.
Defined.

(** C8. When the corrected texts of the units are pairwise distinct, the
    keys of the document are these texts in the order of the units: that
    is the whole document when enrichment is skipped, and the keys of every
    run with enrichment that reaches the end. *)
Theorem output_order_is_input_order (c : client) (yaml_data : list str) :
  NoDup (corrected_texts c 0 yaml_data) ->
  (exists log,
     main c yaml_data true =
     (Ok (map (fun t => (t, JObj [])) (corrected_texts c 0 yaml_data)), log))
  /\ (forall final_data log,
        main c yaml_data false = (Ok final_data, log) ->
        PyDict.keys final_data = corrected_texts c 0 yaml_data).
Proof.
  intros Hnd. split.
  - destruct (main c yaml_data true) as [r log] eqn:E. exists log.
    unfold main in E.
    pose proof (correct_loop_values c yaml_data [] (Forall_nil _)) as Hv.
    destruct (correct_loop c [] yaml_data []) as [d log0] eqn:Ec.
    inversion E; subst. f_equal. f_equal.
    assert (Hk : PyDict.keys d = corrected_texts c 0 yaml_data).
    { rewrite (@main_keys c yaml_data true d log).
      - now apply first_appearances_fixed.
      - unfold main. now rewrite Ec. }
    cbn [fst] in Hv. rewrite <- Hk. clear -Hv.
    induction Hv as [| [k v] r Hkv Hr IH]; [reflexivity |].
    cbn [PyDict.keys map fst] in *. cbn [snd] in Hkv. subst v.
    f_equal. exact IH.
  - intros fd log H. apply main_keys in H. rewrite H.
    now apply first_appearances_fixed.
Qed.

Lemma output_order_is_input_order_witness :
  (exists log,
     main (parses_with (txt "{'entries': []}")) [lit "b  a"; lit "a"] true =
     (Ok [(lit "b a", JObj []); (lit "a", JObj [])], log))
  /\ (forall final_data log,
        main (parses_with (txt "{'entries': []}")) [lit "b  a"; lit "a"] false
        = (Ok final_data, log) ->
        PyDict.keys final_data = [lit "b a"; lit "a"]).
Proof.
  apply (@output_order_is_input_order
           (parses_with (txt "{'entries': []}")) [lit "b  a"; lit "a"]).
  vm_compute. repeat constructor; cbn; intuition discriminate.
Defined.

(** C9. Two units at different places whose corrected texts are the same
    leave one entry for that text in the document of a run that reaches
    the end, and the document has fewer entries than there are units. *)
Theorem equal_corrected_texts_collapse
    (c : client) (yaml_data : list str) (skip_enrichment : bool)
    (i j : nat) (t : str) (final_data : PyDict.dict json)
    (log : list request) :
  i <> j ->
  nth_error (corrected_texts c 0 yaml_data) i = Some t ->
  nth_error (corrected_texts c 0 yaml_data) j = Some t ->
  main c yaml_data skip_enrichment = (Ok final_data, log) ->
  count_occ str_eq_dec (PyDict.keys final_data) t = 1
  /\ List.length final_data < List.length yaml_data.
Proof.
  intros Hij Hi Hj Hmain. apply main_keys in Hmain.
  assert (Hlen : forall n l, List.length (corrected_texts c n l) = List.length l).
  { intros n l. revert n. induction l as [| a l IH]; intros n; cbn;
      [reflexivity | now rewrite IH]. }
  split.
  - rewrite Hmain.
    apply NoDup_count_occ'; [apply first_appearances_NoDup |].
    apply add_keys_In. right. eapply nth_error_In. exact Hi.
  - replace (List.length final_data) with (List.length (PyDict.keys final_data))
      by apply length_map.
    rewrite Hmain, <- (Hlen 0 yaml_data).
    assert (Hsplit : exists l1 l2 l3,
               corrected_texts c 0 yaml_data = l1 ++ t :: l2 ++ t :: l3).
    { destruct (Nat.lt_total i j) as [Hlt | [Heq | Hgt]]; [| tauto |].
      - eapply nth_error_twice; eauto.
      - eapply nth_error_twice; eauto. }
    destruct Hsplit as (l1 & l2 & l3 & ->).
    apply add_keys_repeated_length.
Qed.

Lemma equal_corrected_texts_collapse_witness :
  count_occ str_eq_dec
    (PyDict.keys [(lit "a b", JObj [(ENTRIES, JArr [])])]) (lit "a b") = 1
  /\ List.length [(lit "a b", JObj [(ENTRIES, JArr [])])]
     < List.length [lit "a  b"; lit "a b"].
Proof.
  apply (@equal_corrected_texts_collapse
           (parses_with (txt "{'entries': []}")) [lit "a  b"; lit "a b"]
           false 0 1 (lit "a b") [(lit "a b", JObj [(ENTRIES, JArr [])])]
           [correction_request (lit "a  b"); correction_request (lit "a b");
            parsing_request (lit "a b")]).
  - discriminate.
  - reflexivity.
  - reflexivity.
  - vm_compute. reflexivity.
Defined.

(** C10. An entry that has a [head] and already has a [verify] comes out
    with [verify] right after [head], holding the entry's own value of
    [verify] (the later assignment overwrites the [False] put in first),
    followed by its other fields in their order. *)
Theorem reorder_entry_keeps_verify
    (entry : PyDict.dict json) (head v : json) :
  PyDict.wf entry ->
  PyDict.get HEAD entry = Some head ->
  PyDict.get VERIFY entry = Some v ->
  reorder_entry (JObj entry) =
  Ok (JObj ((HEAD, head) :: (VERIFY, v) :: without_head_verify entry)).
Proof.
  intros Hwf Hh Hv. cbn [reorder_entry]. rewrite Hh.
  rewrite rebuild_spec by exact Hwf. now rewrite Hv.
Qed.

Lemma reorder_entry_keeps_verify_witness :
  reorder_entry
    (JObj [(lit "gender", JStr (lit "m")); (VERIFY, JBool true);
           (HEAD, JStr (lit "x")); (lit "syns", JArr [])]) =
  Ok (JObj [(HEAD, JStr (lit "x")); (VERIFY, JBool true);
            (lit "gender", JStr (lit "m")); (lit "syns", JArr [])]).
Proof.
  apply (@reorder_entry_keeps_verify
           [(lit "gender", JStr (lit "m")); (VERIFY, JBool true);
            (HEAD, JStr (lit "x")); (lit "syns", JArr [])]
           (JStr (lit "x")) (JBool true)).
  - unfold PyDict.wf. cbn.
    repeat constructor; cbn; intuition discriminate.
  - reflexivity.
  - reflexivity.
Defined.

(** * Further properties *)

(** ** The normal form of a corrected sloka *)

Lemma contains_cons needle c s :
  contains needle (c :: s) = startswith needle (c :: s) || contains needle s.
Proof. reflexivity. Qed.

Lemma no_dd_contains (s : str) :
  no_dd s = negb (contains [DANDA; DANDA] s).
Proof.
  induction s as [| a r IH]; [reflexivity |].
  rewrite contains_cons, negb_orb, <- IH.
  destruct r as [| b r'].
  { cbn [startswith]. now rewrite andb_false_r. }
  cbn [no_dd startswith]. unfold is_dd.
  rewrite (N.eqb_sym DANDA a), (N.eqb_sym DANDA b), andb_true_r.
  reflexivity.
Qed.

Lemma word_not_space_head c w : word (c :: w) -> isspace c = false.
Proof. intros H. now apply word_inv in H. Qed.

Lemma join_words_head ws :
  Forall word ws -> ws <> [] ->
  exists c r, join [SP] ws = c :: r /\ isspace c = false.
Proof.
  intros H Hne. destruct H as [| w ws Hw Hws]; [congruence |].
  destruct w as [| c w']; [now destruct Hw |].
  apply word_not_space_head in Hw.
  destruct ws as [| w2 ws].
  - exists c, w'. now split.
  - rewrite join_cons2. exists c, (w' ++ [SP] ++ join [SP] (w2 :: ws)).
    now split.
Qed.

Lemma only_plain_spaces_app a b :
  only_plain_spaces (a ++ b) = only_plain_spaces a && only_plain_spaces b.
Proof. apply forallb_app. Qed.

Lemma word_only_plain w : word w -> only_plain_spaces w = true.
Proof.
  intros [_ H]. unfold only_plain_spaces.
  induction w as [| c w IH]; [reflexivity |].
  cbn [forallb] in *. apply andb_true_iff in H as [Hc H].
  now rewrite Hc, IH.
Qed.

Lemma join_words_only_plain ws :
  Forall word ws -> only_plain_spaces (join [SP] ws) = true.
Proof.
  induction 1 as [| w ws Hw Hws IH]; [reflexivity |].
  destruct ws as [| w2 ws]; [now apply word_only_plain |].
  rewrite join_cons2, !only_plain_spaces_app, IH, (word_only_plain Hw).
  reflexivity.
Qed.

Lemma contains_after_nonspaces needle w t :
  isspace (hd 0%N needle) = true ->
  forallb (fun c => negb (isspace c)) w = true ->
  needle <> [] ->
  contains needle (w ++ t) = contains needle t.
Proof.
  intros Hn Hw Hne. induction w as [| c w IH]; [reflexivity |].
  cbn [forallb] in Hw. apply andb_true_iff in Hw as [Hc Hw].
  cbn [app]. rewrite contains_cons, IH by exact Hw.
  destruct needle as [| a p]; [congruence |].
  cbn [startswith hd] in *. destruct (N.eqb_spec a c) as [-> |];
    [| reflexivity].
  rewrite Hn in Hc. discriminate.
Qed.

Lemma join_words_no_double_space ws :
  Forall word ws -> contains [SP; SP] (join [SP] ws) = false.
Proof.
  induction 1 as [| w ws Hw Hws IH]; [reflexivity |].
  destruct ws as [| w2 ws].
  - cbn [join]. rewrite <- (app_nil_r w).
    rewrite contains_after_nonspaces; [reflexivity | reflexivity | | discriminate].
    now destruct Hw.
  - rewrite join_cons2.
    rewrite contains_after_nonspaces;
      [| reflexivity | now destruct Hw | discriminate].
    cbn [app]. rewrite contains_cons, IH, orb_false_r.
    destruct (@join_words_head (w2 :: ws) Hws) as (c & r & -> & Hc);
      [discriminate |].
    cbn [startswith]. destruct (N.eqb_spec SP c) as [<- |]; [| reflexivity].
    discriminate.
Qed.

Lemma word_last w : word w -> exists pre c, w = pre ++ [c] /\ isspace c = false.
Proof.
  intros [Hne H]. destruct (exists_last Hne) as (pre & c & ->).
  exists pre, c. split; [reflexivity |].
  rewrite forallb_app in H. apply andb_true_iff in H as [_ H].
  cbn [forallb] in H. rewrite andb_true_r in H. now apply negb_true_iff in H.
Qed.

Lemma join_words_last ws :
  Forall word ws -> ws <> [] ->
  exists pre c, join [SP] ws = pre ++ [c] /\ isspace c = false.
Proof.
  induction 1 as [| w ws Hw Hws IH]; [congruence |]. intros _.
  destruct ws as [| w2 ws]; [now apply word_last |].
  destruct IH as (pre & c & E & Hc); [discriminate |].
  rewrite join_cons2, E. exists (w ++ [SP] ++ pre), c.
  split; [now rewrite <- !app_assoc | exact Hc].
Qed.

Lemma join_words_stripped ws :
  Forall word ws -> strip (join [SP] ws) = join [SP] ws.
Proof.
  intros H. destruct ws as [| w ws]; [reflexivity |].
  destruct (join_words_head H) as (c & r & E & Hc); [discriminate |].
  destruct (join_words_last H) as (pre & c' & E' & Hc'); [discriminate |].
  unfold strip. rewrite E, (@lstrip_nonspace c r Hc), <- E, E'.
  now apply rstrip_last_nonspace.
Qed.

(** The normalised text as words joined by single spaces. *)
Lemma normalize_as_words s :
  normalize s = join [SP] (map rewrite_dd (split_ws (replace [NL] [SP] s)))
  /\ Forall word (map rewrite_dd (split_ws (replace [NL] [SP] s))).
Proof.
  split.
  - unfold normalize. apply rewrite_dd_join.
  - pose proof (split_ws_words (replace [NL] [SP] s)) as H.
    induction H as [| w l Hw Hl IH]; constructor;
      [now apply rewrite_dd_word | exact IH].
Qed.

Lemma normalize_gives_canonical (s : str) : canonical (normalize s).
Proof.
  destruct (normalize_as_words s) as [E Hw]. unfold canonical.
  repeat split.
  - rewrite E. now apply join_words_stripped.
  - rewrite E. now apply join_words_only_plain.
  - rewrite E. now apply join_words_no_double_space.
  - apply negb_true_iff. rewrite <- no_dd_contains. unfold normalize.
    apply rewrite_dd_no_dd.
Qed.

(** X1. Whatever the text, its normal form has nothing left to strip, no
    whitespace other than single plain spaces (so no line break) and no
    doubled single danda. *)
Theorem normalize_canonical (s : str) :
  strip (normalize s) = normalize s
  /\ only_plain_spaces (normalize s) = true
  /\ contains [SP; SP] (normalize s) = false
  /\ contains [DANDA; DANDA] (normalize s) = false.
Proof. apply normalize_gives_canonical. Qed.

Lemma strip_fixed_parts s : strip s = s -> lstrip s = s /\ rstrip s = s.
Proof.
  unfold strip. intros H.
  assert (Hl : lstrip s = s).
  { destruct (lstrip_head s) as [E | (c & r & E & Hc)].
    - rewrite E in H. cbn in H. now subst.
    - rewrite E, (@rstrip_nonspace_cons c r Hc) in H. rewrite <- H.
      now apply lstrip_nonspace. }
  split; [exact Hl |]. now rewrite Hl in H.
Qed.

Lemma rstrip_fixed_tail c r : rstrip (c :: r) = c :: r -> r = [] \/ rstrip r = r.
Proof.
  cbn [rstrip]. destruct (rstrip r) as [| a r'] eqn:E.
  - destruct (isspace c); intros H; inversion H. now left.
  - intros H. inversion H. now right.
Qed.

Lemma rstrip_fixed_not_space c : rstrip [c] = [c] -> isspace c = false.
Proof. cbn [rstrip]. now destruct (isspace c). Qed.

Lemma split_ws_not_nil c r : isspace c = false -> split_ws (c :: r) <> [].
Proof.
  intros Hc. cbn [split_ws]. rewrite Hc. destruct r as [| c' r'];
    [discriminate |].
  destruct (isspace c'); [discriminate |].
  destruct (split_ws (c' :: r')); discriminate.
Qed.

Lemma join_push sep c w ws :
  join sep ((c :: w) :: ws) = c :: join sep (w :: ws).
Proof. destruct ws; reflexivity. Qed.

Lemma only_plain_space c : isspace c = true ->
  negb (isspace c) || (c =? SP)%N = true -> c = SP.
Proof.
  intros Hc H. rewrite Hc in H. cbn in H. now apply N.eqb_eq in H.
Qed.

Lemma split_ws_cons2 a b r :
  split_ws (a :: b :: r) =
  if isspace a then split_ws (b :: r)
  else if isspace b then [a] :: split_ws (b :: r)
       else match split_ws (b :: r) with
            | w :: ws => (a :: w) :: ws
            | [] => [[a]]
            end.
Proof. reflexivity. Qed.

Lemma split_ws_space c r : isspace c = true -> split_ws (c :: r) = split_ws r.
Proof. intros H. cbn [split_ws]. now rewrite H. Qed.

(** A text with single plain spaces only and no space at its end is what
    its words give when joined, leading space apart. *)
Lemma join_split_ws_tidy : forall s : str,
  only_plain_spaces s = true -> contains [SP; SP] s = false ->
  rstrip s = s -> join [SP] (split_ws s) = lstrip s.
Proof.
  induction s as [| a | a b r IHr IHbr] using pair_ind; intros Hp Hc Hr.
  - reflexivity.
  - apply rstrip_fixed_not_space in Hr. cbn [split_ws lstrip].
    now rewrite Hr.
  - unfold only_plain_spaces in Hp. cbn [forallb] in Hp.
    apply andb_true_iff in Hp as [Ha Hp].
    assert (Hp' : only_plain_spaces (b :: r) = true) by exact Hp.
    rewrite contains_cons in Hc. apply orb_false_iff in Hc as [Hs Hc].
    apply rstrip_fixed_tail in Hr as [Hr | Hr]; [discriminate |].
    specialize (IHbr Hp' Hc Hr).
    rewrite split_ws_cons2.
    destruct (isspace a) eqn:Ea.
    + (* a leading space is skipped *)
      cbn [lstrip]. rewrite Ea. exact IHbr.
    + rewrite (@lstrip_nonspace a (b :: r) Ea).
      destruct (isspace b) eqn:Eb.
      * (* the word ends here: one space, then a word *)
        apply andb_true_iff in Hp as [Hb Hp].
        assert (b = SP) as ->
          by (cbn [negb orb] in Hb; now apply N.eqb_eq in Hb).
        rewrite (@split_ws_space SP r Eb) in *.
        cbn [lstrip] in IHbr. rewrite Eb in IHbr.
        destruct r as [| c r'].
        { cbn [rstrip] in Hr. rewrite Eb in Hr. discriminate. }
        assert (Ec : isspace c = false).
        { destruct (isspace c) eqn:Ec; [| reflexivity].
          cbn [forallb] in Hp. apply andb_true_iff in Hp as [Hc' _].
          pose proof (@only_plain_space c Ec Hc') as ->.
          rewrite contains_cons in Hc. apply orb_false_iff in Hc as [Hc _].
          discriminate. }
        rewrite (@lstrip_nonspace c r' Ec) in IHbr.
        destruct (split_ws (c :: r')) as [| w ws] eqn:Ew;
          [now apply split_ws_not_nil in Ew |].
        rewrite join_cons2. cbn [app]. do 2 f_equal. exact IHbr.
      * rewrite (@lstrip_nonspace b r Eb) in IHbr.
        destruct (split_ws (b :: r)) as [| w ws] eqn:Ew;
          [now apply split_ws_not_nil in Ew |].
        rewrite join_push. f_equal. exact IHbr.
Qed.

Lemma canonical_joined s :
  canonical s -> s = join [SP] (split_ws s) /\ no_dd s = true.
Proof.
  intros (Hs & Hp & Hc & Hd). apply strip_fixed_parts in Hs as [Hl Hr].
  split.
  - rewrite join_split_ws_tidy by assumption. now rewrite Hl.
  - rewrite no_dd_contains, Hd. reflexivity.
Qed.

(** X2. The normalisation leaves a text as it is exactly when the text is
    in canonical form already. *)
Theorem normalize_fixed_iff_canonical (s : str) :
  normalize s = s <-> canonical s.
Proof.
  split.
  - intros H. rewrite <- H. apply normalize_gives_canonical.
  - intros H. apply canonical_joined in H as [E Hd].
    rewrite E at 1. rewrite normalize_joined by apply split_ws_words.
    rewrite <- E. now apply rewrite_dd_fixed.
Qed.

(** ** Words *)

Lemma split_ws_one c : split_ws [c] = if isspace c then [] else [[c]].
Proof. reflexivity. Qed.

(** Replacing whitespace by whitespace does not change the words. *)
Lemma split_ws_map (f : char -> char) :
  (forall c, isspace (f c) = isspace c) ->
  (forall c, isspace c = false -> f c = c) ->
  forall s : str, split_ws (map f s) = split_ws s.
Proof.
  intros Hsp Hid.
  induction s as [| a | a b r IHr IHbr] using pair_ind.
  - reflexivity.
  - cbn [map]. rewrite !split_ws_one, Hsp.
    destruct (isspace a) eqn:Ea; [reflexivity |]. now rewrite Hid.
  - cbn [map] in *. rewrite !split_ws_cons2, !Hsp, IHbr.
    destruct (isspace a) eqn:Ea; [reflexivity |]. now rewrite (Hid a Ea).
Qed.

Lemma split_ws_replace_nl s : split_ws (replace [NL] [SP] s) = split_ws s.
Proof.
  rewrite replace_nl_map. apply split_ws_map.
  - intros c. destruct (N.eqb_spec c NL) as [-> |]; reflexivity.
  - intros c Hc. destruct (N.eqb_spec c NL) as [-> |]; [discriminate |].
    reflexivity.
Qed.

Lemma split_ws_lstrip s : split_ws (lstrip s) = split_ws s.
Proof.
  induction s as [| c r IH]; [reflexivity |].
  cbn [lstrip]. destruct (isspace c) eqn:E; [| reflexivity].
  now rewrite (@split_ws_space c r E).
Qed.

Lemma split_ws_blank s : forallb isspace s = true -> split_ws s = [].
Proof.
  induction s as [| c r IH]; [reflexivity |]. cbn [forallb].
  intros H. apply andb_true_iff in H as [Hc H].
  now rewrite (@split_ws_space c r Hc), IH.
Qed.

Lemma rstrip_nil_blank s : rstrip s = [] -> forallb isspace s = true.
Proof.
  induction s as [| c r IH]; [reflexivity |]. cbn [rstrip forallb].
  destruct (rstrip r) as [| a r'] eqn:E; [| discriminate].
  destruct (isspace c); [| discriminate]. intros _. now apply IH.
Qed.

Lemma rstrip_cons c r :
  rstrip (c :: r) =
  match rstrip r with
  | [] => if isspace c then [] else [c]
  | _ :: _ => c :: rstrip r
  end.
Proof. cbn [rstrip]. now destruct (rstrip r). Qed.

Lemma rstrip_head b r x t : rstrip (b :: r) = x :: t -> x = b.
Proof.
  rewrite rstrip_cons. destruct (rstrip r).
  - destruct (isspace b); intros H; now inversion H.
  - intros H. now inversion H.
Qed.

Lemma split_ws_rstrip : forall s : str, split_ws (rstrip s) = split_ws s.
Proof.
  induction s as [| a | a b r IHr IHbr] using pair_ind.
  - reflexivity.
  - cbn [rstrip]. destruct (isspace a) eqn:Ea; [| reflexivity].
    now rewrite split_ws_one, Ea.
  - rewrite rstrip_cons. destruct (rstrip (b :: r)) as [| x t] eqn:E.
    + pose proof (@rstrip_nil_blank (b :: r) E) as Hb.
      rewrite split_ws_cons2. pose proof Hb as Hb'.
      cbn [forallb] in Hb'. apply andb_true_iff in Hb' as [Eb _].
      rewrite Eb, (@split_ws_blank (b :: r) Hb).
      destruct (isspace a) eqn:Ea; [reflexivity |].
      now rewrite split_ws_one, Ea.
    + pose proof (@rstrip_head b r x t E) as ->.
      rewrite !split_ws_cons2, IHbr. reflexivity.
Qed.

Lemma split_ws_strip s : split_ws (strip s) = split_ws s.
Proof. unfold strip. now rewrite split_ws_rstrip, split_ws_lstrip. Qed.

(** The normalisation as the words of the text, single-spaced, with the
    dandas rewritten: the replacement of line feeds adds nothing to what
    [split()] does. *)
Lemma normalize_words s :
  normalize s = rewrite_dd (join [SP] (split_ws s)).
Proof. unfold normalize. now rewrite split_ws_replace_nl. Qed.

(** X3. The normalisation neither merges, splits, drops nor reorders
    words: the words of the normal form are the words of the text, each
    with its doubled single dandas rewritten. *)
Theorem normalize_keeps_words (s : str) :
  split_ws (normalize s) = map rewrite_dd (split_ws s).
Proof.
  destruct (normalize_as_words s) as [E Hw].
  rewrite E, split_ws_join by exact Hw. now rewrite split_ws_replace_nl.
Qed.

(** X4. When the correction call returns a text, the corrected sloka kept
    by [main] is made of the words of that text joined by single spaces,
    with the dandas rewritten; the [strip()] of the wrapper and the
    replacement of line feeds change nothing to it. *)
Theorem correct_stage_on_reply
    (sloka text : str) (more : list block) (create : request -> reply) :
  create (correction_request sloka) = Message (TextBlock text :: more) ->
  correct_stage sloka create = rewrite_dd (join [SP] (split_ws text)).
Proof.
  intros H. unfold correct_stage, correct_sloka_with_claude.
  rewrite H. cbn [first_text]. now rewrite normalize_words, split_ws_strip.
Qed.

Lemma correct_stage_on_reply_witness :
  correct_stage (lit "a")
    (fun _ => Message [TextBlock (txt " ka| kha  ")])
  = rewrite_dd (join [SP] (split_ws (txt " ka| kha  "))).
Proof.
  apply (@correct_stage_on_reply (lit "a") (txt " ka| kha  ") []
           (fun _ => Message [TextBlock (txt " ka| kha  ")])).
  reflexivity.
Defined.

(** ** Runs of dandas *)

Lemma rewrite_dd_pairs k (t : str) :
  rewrite_dd (repeat DANDA (2 * k) ++ t) = repeat DDANDA k ++ rewrite_dd t.
Proof.
  induction k as [| k IH]; [reflexivity |].
  replace (2 * S k) with (S (S (2 * k))) by lia.
  cbn [repeat app]. rewrite replace_dd_cons2. cbn [is_dd].
  change (is_dd DANDA DANDA) with true. cbn iota. now rewrite IH.
Qed.

(** X5. The rewriting pairs the single dandas of a run from the left: a run
    of [2k] of them becomes [k] double dandas, and a run of [2k+1] becomes
    [k] double dandas followed by the one single danda left over. *)
Theorem rewrite_dd_runs (k : nat) :
  rewrite_dd (repeat DANDA (2 * k)) = repeat DDANDA k
  /\ rewrite_dd (repeat DANDA (2 * k + 1)) = repeat DDANDA k ++ [DANDA].
Proof.
  split.
  - rewrite <- (app_nil_r (repeat DANDA (2 * k))), rewrite_dd_pairs.
    apply app_nil_r.
  - rewrite repeat_app, rewrite_dd_pairs. reflexivity.
Qed.

(** ** Replies without words *)

Lemma strip_blank s : blank s -> strip s = [].
Proof.
  intros H. unfold strip. rewrite <- (app_nil_r s).
  now rewrite lstrip_spaces_app.
Qed.

(** X6. A correction reply made of whitespace only (the empty reply
    included) is no failure for the wrapper: the original text is not
    kept, and the corrected sloka is the empty text. *)
Theorem blank_correction_gives_empty_key
    (sloka text : str) (more : list block) (create : request -> reply) :
  create (correction_request sloka) = Message (TextBlock text :: more) ->
  blank text ->
  correct_sloka_with_claude sloka create = []
  /\ correct_stage sloka create = [].
Proof.
  intros H Hb. unfold correct_stage, correct_sloka_with_claude.
  rewrite H. cbn [first_text]. rewrite strip_blank by exact Hb.
  split; reflexivity.
Qed.

Lemma blank_correction_gives_empty_key_witness :
  correct_sloka_with_claude (lit "ka kha")
    (fun _ => Message [TextBlock (txt " | ")]) = []
  /\ correct_stage (lit "ka kha")
       (fun _ => Message [TextBlock (txt " | ")]) = [].
Proof.
  apply (@blank_correction_gives_empty_key (lit "ka kha") (txt " | ") []
           (fun _ => Message [TextBlock (txt " | ")])).
  - reflexivity.
  - reflexivity.
Defined.

(** ** The calls of a run *)

Lemma corrected_texts_length c : forall slokas n,
  List.length (corrected_texts c n slokas) = List.length slokas.
Proof.
  induction slokas as [| a l IH]; intros n; cbn [corrected_texts List.length];
    [reflexivity | now rewrite IH].
Qed.

Lemma dict_of_empty_payloads (d : PyDict.dict json) :
  Forall (fun kv => snd kv = JObj []) d ->
  d = map (fun k => (k, JObj [])) (PyDict.keys d).
Proof.
  induction 1 as [| [k v] r Hkv Hr IH]; [reflexivity |].
  cbn [PyDict.keys map fst] in *. cbn [snd] in Hkv. subst v.
  f_equal. exact IH.
Qed.

(** What the correction loop leaves: one empty payload for every distinct
    corrected text, and one request for every unit. *)
Lemma correct_loop_result c yaml_data :
  correct_loop c [] yaml_data [] =
  (map (fun k => (k, JObj []))
     (first_appearances (corrected_texts c 0 yaml_data)),
   map correction_request yaml_data).
Proof.
  pose proof (correct_loop_keys c yaml_data [] []) as Hk.
  pose proof (correct_loop_values c yaml_data [] (Forall_nil _)) as Hv.
  pose proof (correct_loop_log c yaml_data [] []) as Hl.
  destruct (correct_loop c [] yaml_data []) as [d log].
  cbn [fst snd app List.length] in *.
  change (PyDict.keys (@nil (str * json))) with (@nil str) in Hk.
  fold (first_appearances (corrected_texts c 0 yaml_data)) in Hk.
  subst log. f_equal. rewrite <- Hk. now apply dict_of_empty_payloads.
Qed.

(** X7. Without enrichment a run cannot fail, whatever the oracle does: it
    sends one correction request for every unit, in input order, and no
    parsing request, and the document maps every distinct corrected text,
    at the place of its first appearance, to an empty mapping. *)
Theorem correction_only_run (c : client) (yaml_data : list str) :
  main c yaml_data true =
  (Ok (map (fun k => (k, JObj []))
         (first_appearances (corrected_texts c 0 yaml_data))),
   map correction_request yaml_data).
Proof. unfold main. now rewrite correct_loop_result. Qed.

(** X8. The keys of the document of a run that reaches the end are the
    distinct corrected texts, each at the place of its first appearance
    among the units; no key comes twice. *)
Theorem document_keys_first_appearances
    (c : client) (yaml_data : list str) (skip_enrichment : bool)
    (final_data : PyDict.dict json) (log : list request) :
  main c yaml_data skip_enrichment = (Ok final_data, log) ->
  PyDict.keys final_data = first_appearances (corrected_texts c 0 yaml_data)
  /\ PyDict.wf final_data.
Proof.
  intros H. apply main_keys in H. split; [exact H |].
  unfold PyDict.wf. rewrite H. apply first_appearances_NoDup.
Qed.

Lemma document_keys_first_appearances_witness :
  PyDict.keys [(lit "b", no_entries); (lit "a c", no_entries)]
  = first_appearances
      (corrected_texts (parses_with (lit "oops")) 0
         [lit "b"; lit "a  c"; lit " b"; lit "a c"])
  /\ PyDict.wf [(lit "b", no_entries); (lit "a c", no_entries)].
Proof.
  apply (@document_keys_first_appearances (parses_with (lit "oops"))
           [lit "b"; lit "a  c"; lit " b"; lit "a c"] false
           [(lit "b", no_entries); (lit "a c", no_entries)]
           [correction_request (lit "b"); correction_request (lit "a  c");
            correction_request (lit " b"); correction_request (lit "a c");
            parsing_request (lit "b"); parsing_request (lit "a c")]).
  vm_compute. reflexivity.
Defined.

Lemma NoDup_app_cons_fresh (A : Type) (l1 l2 : list A) (a : A) :
  NoDup (l1 ++ a :: l2) -> ~ In a l1 /\ NoDup ((l1 ++ [a]) ++ l2).
Proof.
  intros H. split.
  - apply NoDup_remove_2 in H. intros Hi. apply H, in_or_app. now left.
  - now rewrite <- app_assoc.
Qed.

(** The enrichment loop when it reaches the end, over keys that are
    distinct and new: it appends one payload for every key, in order, the
    payload of the [j]-th key being what the stage gives at the [j]-th call
    from here. *)
Lemma enrich_loop_ok c : forall items log acc final_data log',
  enrich_loop c log items acc = (Ok final_data, log') ->
  NoDup (PyDict.keys acc ++ PyDict.keys items) ->
  exists tail,
    final_data = acc ++ tail
    /\ PyDict.keys tail = PyDict.keys items
    /\ log' = log ++ map parsing_request (PyDict.keys items)
    /\ forall j k p, nth_error tail j = Some (k, p) ->
         enrich_stage k (c (List.length log + j)) = Ok p.
Proof.
  induction items as [| [k x] rest IH]; intros log acc fd log' H Hnd.
  - cbn in H. inversion H; subst. exists []. repeat split.
    + now rewrite app_nil_r.
    + now rewrite app_nil_r.
    + intros [| j] ? ? Hj; discriminate.
  - cbn [enrich_loop] in H.
    destruct (add_verify (parse_sloka_with_claude k (c (List.length log))))
      as [p | e] eqn:Ep; [| discriminate].
    cbn [PyDict.keys map fst] in Hnd. fold (PyDict.keys rest) in Hnd.
    fold (PyDict.keys acc) in Hnd.
    apply NoDup_app_cons_fresh in Hnd as [Hfresh Hnd].
    rewrite set_fresh in H by exact Hfresh.
    apply IH in H.
    2:{ unfold PyDict.keys in *. now rewrite map_app. }
    destruct H as (tail & -> & Hk & -> & Hp).
    exists ((k, p) :: tail). repeat split.
    + now rewrite <- app_assoc.
    + cbn [PyDict.keys map fst]. f_equal. exact Hk.
    + cbn [PyDict.keys map fst]. now rewrite <- app_assoc.
    + intros [| j] k' p' Hj.
      * cbn in Hj. inversion Hj; subst. now rewrite Nat.add_0_r.
      * cbn [nth_error] in Hj. apply Hp in Hj.
        rewrite length_app in Hj. cbn [List.length] in Hj.
        now replace (List.length log + S j)
          with (List.length log + 1 + j) by lia.
Qed.




Lemma keys_of_payloads (v : json) (ks : list str) :
  PyDict.keys (map (fun k => (k, v)) ks) = ks.
Proof. unfold PyDict.keys. rewrite map_map. cbn [fst]. apply map_id. Qed.

(** X9. A run with enrichment that reaches the end has sent one correction
    request for every unit, in input order, and then one parsing request
    for every key of the document, in the order of the keys and with the
    key as its text: no call is repeated, and no parsing request comes
    before the last correction request. *)
Theorem completed_run_calls
    (c : client) (yaml_data : list str) (final_data : PyDict.dict json)
    (log : list request) :
  main c yaml_data false = (Ok final_data, log) ->
  log = map correction_request yaml_data
        ++ map parsing_request (PyDict.keys final_data).
Proof.
  unfold main. rewrite correct_loop_result. intros H.
  apply enrich_loop_ok in H.
  - destruct H as (tail & -> & Hk & -> & _). cbn [app]. now rewrite Hk.
  - rewrite keys_of_payloads. apply first_appearances_NoDup.
Qed.

Lemma completed_run_calls_witness :
  [correction_request (lit "b"); correction_request (lit "a  c");
   correction_request (lit " b"); parsing_request (lit "b");
   parsing_request (lit "a c")]
  = map correction_request [lit "b"; lit "a  c"; lit " b"]
    ++ map parsing_request
         (PyDict.keys [(lit "b", no_entries); (lit "a c", no_entries)]).
Proof.
  apply (@completed_run_calls (parses_with (lit "oops"))
           [lit "b"; lit "a  c"; lit " b"]
           [(lit "b", no_entries); (lit "a c", no_entries)]).
  vm_compute. reflexivity.
Defined.



(** X11. In the document of a run with enrichment that reaches the end, the
    payload at place [j] is what the enrichment stage gives for the key at
    that place with the client's answer to call number
    [len(yaml_data) + j]: every verse is parsed once, from its corrected
    text, after all the corrections. *)
Theorem completed_run_payloads
    (c : client) (yaml_data : list str) (final_data : PyDict.dict json)
    (log : list request) :
  main c yaml_data false = (Ok final_data, log) ->
  forall j k p,
    nth_error final_data j = Some (k, p) ->
    enrich_stage k (c (List.length yaml_data + j)) = Ok p.
Proof.
  unfold main. rewrite correct_loop_result. intros H.
  apply enrich_loop_ok in H.
  - destruct H as (tail & -> & _ & _ & Hp). cbn [app].
    intros j k p Hj. apply Hp in Hj. now rewrite length_map in Hj.
  - rewrite keys_of_payloads. apply first_appearances_NoDup.
Qed.

Lemma completed_run_payloads_witness :
  enrich_stage (lit "a")
    (parses_with (txt "{'entries': [{'head': 'x'}]}")
       (List.length [lit "b"; lit "a"] + 1))
  = Ok (JObj [(ENTRIES, JArr [JObj [(HEAD, JStr (lit "x"));
                                    (VERIFY, JBool false)]])]).
Proof.
  apply (@completed_run_payloads
           (parses_with (txt "{'entries': [{'head': 'x'}]}"))
           [lit "b"; lit "a"]
           [(lit "b", JObj [(ENTRIES, JArr [JObj [(HEAD, JStr (lit "x"));
                                                  (VERIFY, JBool false)]])]);
            (lit "a", JObj [(ENTRIES, JArr [JObj [(HEAD, JStr (lit "x"));
                                                  (VERIFY, JBool false)]])])]
           [correction_request (lit "b"); correction_request (lit "a");
            parsing_request (lit "b"); parsing_request (lit "a")]).
  - vm_compute. reflexivity.
  - reflexivity.
Defined.

(** ** The oracle out of service *)

Lemma enrich_loop_constant c (v : json) :
  (forall n k, enrich_stage k (c n) = Ok v) ->
  forall items log acc,
    NoDup (PyDict.keys acc ++ PyDict.keys items) ->
    enrich_loop c log items acc =
    (Ok (acc ++ map (fun k => (k, v)) (PyDict.keys items)),
     log ++ map parsing_request (PyDict.keys items)).
Proof.
  intros Hv. induction items as [| [k x] rest IH]; intros log acc Hnd.
  - cbn. now rewrite !app_nil_r.
  - cbn [enrich_loop]. specialize (Hv (List.length log) k).
    unfold enrich_stage in Hv. rewrite Hv.
    cbn [PyDict.keys map fst] in *. fold (PyDict.keys rest) in *.
    fold (PyDict.keys acc) in Hnd.
    apply NoDup_app_cons_fresh in Hnd as [Hfresh Hnd].
    rewrite set_fresh by exact Hfresh.
    rewrite IH.
    + now rewrite <- !app_assoc.
    + unfold PyDict.keys in *. now rewrite map_app.
Qed.

Lemma corrected_texts_down c :
  (forall n rq, exists e, first_text (c n rq) = Raise e) ->
  forall slokas n, corrected_texts c n slokas = map normalize slokas.
Proof.
  intros Hdown. induction slokas as [| sloka rest IH]; intros n;
    [reflexivity |].
  cbn [corrected_texts map]. rewrite IH. f_equal.
  unfold correct_stage, correct_sloka_with_claude.
  destruct (Hdown n (correction_request sloka)) as [e ->]. reflexivity.
Qed.

(** X12. When every call of the oracle fails (it raises, or its message has
    no content, or the first block of the message has no text), a run with
    enrichment still reaches the end: the keys of the document are the
    normalised texts of the units, first appearances only, every payload is
    [{"entries": []}], and every request has been sent once. *)
Theorem run_with_oracle_down (c : client) (yaml_data : list str) :
  (forall n rq, exists e, first_text (c n rq) = Raise e) ->
  main c yaml_data false =
  (Ok (map (fun k => (k, no_entries))
         (first_appearances (map normalize yaml_data))),
   map correction_request yaml_data
   ++ map parsing_request (first_appearances (map normalize yaml_data))).
Proof.
  intros Hdown. unfold main. rewrite correct_loop_result.
  rewrite (@corrected_texts_down c Hdown).
  rewrite (@enrich_loop_constant c no_entries).
  - now rewrite keys_of_payloads.
  - intros n k. unfold enrich_stage, parse_sloka_with_claude.
    destruct (Hdown n (parsing_request k)) as [e ->]. reflexivity.
  - rewrite keys_of_payloads. apply first_appearances_NoDup.
Qed.

Lemma run_with_oracle_down_witness :
  main down [lit "b"; lit "a  c"; lit " b"] false =
  (Ok (map (fun k => (k, no_entries))
         (first_appearances (map normalize [lit "b"; lit "a  c"; lit " b"]))),
   map correction_request [lit "b"; lit "a  c"; lit " b"]
   ++ map parsing_request
        (first_appearances (map normalize [lit "b"; lit "a  c"; lit " b"]))).
Proof.
  apply (@run_with_oracle_down down [lit "b"; lit "a  c"; lit " b"]).
  intros n rq. exists OracleError. reflexivity.
Defined.

(** ** The [verify] insertion, field by field *)

Lemma get_set_same (V : Type) k (v : V) (d : PyDict.dict V) :
  PyDict.get k (PyDict.set k v d) = Some v.
Proof.
  induction d as [| [k' v'] r IH]; cbn [PyDict.set PyDict.get].
  - now rewrite str_eqb_refl.
  - destruct (str_eqb k' k) eqn:E; cbn [PyDict.get]; now rewrite E.
Qed.

Lemma get_set_other (V : Type) k k' (v : V) (d : PyDict.dict V) :
  k' <> k -> PyDict.get k' (PyDict.set k v d) = PyDict.get k' d.
Proof.
  intros Hne. induction d as [| [k0 v0] r IH]; cbn [PyDict.set PyDict.get].
  - destruct (str_eqb k k') eqn:E; [| reflexivity].
    apply str_eqb_eq in E. congruence.
  - destruct (str_eqb k0 k) eqn:E; cbn [PyDict.get].
    + apply str_eqb_eq in E. subst k0.
      destruct (str_eqb k k') eqn:E'; [| reflexivity].
      apply str_eqb_eq in E'. congruence.
    + now rewrite IH.
Qed.

Lemma set_set (V : Type) k (v w : V) (d : PyDict.dict V) :
  PyDict.set k w (PyDict.set k v d) = PyDict.set k w d.
Proof.
  induction d as [| [k' v'] r IH]; cbn [PyDict.set].
  - now rewrite str_eqb_refl.
  - destruct (str_eqb k' k) eqn:E; cbn [PyDict.set]; rewrite E;
      [reflexivity | now rewrite IH].
Qed.

(** A filter on keys that lets [k] through does not change what is found
    under [k]. *)
Lemma get_filter (V : Type) (f : str -> bool) k (d : PyDict.dict V) :
  f k = true ->
  PyDict.get k (filter (fun kv => f (fst kv)) d) = PyDict.get k d.
Proof.
  intros Hk. induction d as [| [k' v'] r IH]; [reflexivity |].
  cbn [filter fst PyDict.get]. destruct (str_eqb k' k) eqn:E.
  - apply str_eqb_eq in E. subst k'. rewrite Hk. cbn [PyDict.get].
    now rewrite str_eqb_refl.
  - destruct (f k'); [cbn [PyDict.get]; now rewrite E |]. exact IH.
Qed.

Lemma keys_filter_incl (V : Type) (f : str * V -> bool) (d : PyDict.dict V) k :
  In k (PyDict.keys (filter f d)) -> In k (PyDict.keys d).
Proof.
  unfold PyDict.keys. rewrite !in_map_iff.
  intros (kv & E & Hin). apply filter_In in Hin as [Hin _]. eauto.
Qed.

Lemma wf_filter (V : Type) (f : str * V -> bool) (d : PyDict.dict V) :
  PyDict.wf d -> PyDict.wf (filter f d).
Proof.
  unfold PyDict.wf. induction d as [| [k v] r IH]; [intros; constructor |].
  cbn [PyDict.keys map fst filter]. intros H.
  apply NoDup_cons_iff in H as [Hk Hr].
  destruct (f (k, v)); [| now apply IH].
  cbn [PyDict.keys map fst]. constructor; [| now apply IH].
  intros Hin. apply Hk. eapply keys_filter_incl. exact Hin.
Qed.

Lemma without_head_verify_keys entry k :
  In k (PyDict.keys (without_head_verify entry)) ->
  In k (PyDict.keys entry) /\ k <> HEAD /\ k <> VERIFY.
Proof.
  unfold without_head_verify, PyDict.keys. rewrite !in_map_iff.
  intros ([k' v] & E & Hin). cbn [fst] in E. subst k'.
  apply filter_In in Hin as [Hin Hf]. cbn [fst] in Hf.
  apply andb_true_iff in Hf as [H1 H2].
  apply negb_true_iff, str_eqb_neq in H1.
  apply negb_true_iff, str_eqb_neq in H2.
  repeat split; try assumption. exists (k, v). now split.
Qed.

(** The rebuilt entry is a proper dict. *)
Lemma rebuilt_wf head v (entry : PyDict.dict json) :
  PyDict.wf entry ->
  PyDict.wf ((HEAD, head) :: (VERIFY, v) :: without_head_verify entry).
Proof.
  intros Hwf. unfold PyDict.wf. cbn [PyDict.keys map fst].
  fold (PyDict.keys (without_head_verify entry)).
  constructor; [| constructor].
  - intros [E | Hin]; [discriminate |].
    apply without_head_verify_keys in Hin. tauto.
  - intros Hin. apply without_head_verify_keys in Hin. tauto.
  - now apply wf_filter.
Qed.

(** X13. The rebuilding of an entry loses nothing: the result is a dict
    with distinct keys in which every field other than [verify] is found
    with the value it had, and [verify] is found with the entry's own
    value, or with [false] when the entry had [head] and no [verify]. *)
Theorem reorder_entry_keeps_fields (entry : PyDict.dict json) :
  PyDict.wf entry ->
  exists entry',
    reorder_entry (JObj entry) = Ok (JObj entry')
    /\ PyDict.wf entry'
    /\ (forall k, k <> VERIFY -> PyDict.get k entry' = PyDict.get k entry)
    /\ PyDict.get VERIFY entry' =
       match PyDict.get HEAD entry, PyDict.get VERIFY entry with
       | Some _, None => Some (JBool false)
       | _, own => own
       end.
Proof.
  intros Hwf. cbn [reorder_entry].
  destruct (PyDict.get HEAD entry) as [head |] eqn:Eh.
  - rewrite rebuild_spec by exact Hwf. eexists. split; [reflexivity |].
    split; [now apply rebuilt_wf |]. split.
    + intros k Hk. cbn [PyDict.get].
      destruct (str_eqb HEAD k) eqn:E1.
      { apply str_eqb_eq in E1. subst k. now rewrite Eh. }
      destruct (str_eqb VERIFY k) eqn:E2.
      { apply str_eqb_eq in E2. congruence. }
      apply (@get_filter json
               (fun k => negb (str_eqb k HEAD) && negb (str_eqb k VERIFY))).
      apply str_eqb_neq in E1, E2.
      apply andb_true_iff; split; apply negb_true_iff, str_eqb_neq;
        congruence.
    + cbn [PyDict.get].
      replace (str_eqb HEAD VERIFY) with false by reflexivity.
      rewrite str_eqb_refl. now destruct (PyDict.get VERIFY entry).
  - exists entry. repeat split; assumption.
Qed.

Lemma reorder_entry_keeps_fields_witness :
  exists entry',
    reorder_entry
      (JObj [(lit "gender", JStr (lit "m")); (HEAD, JStr (lit "x"));
             (lit "syns", JArr [])])
    = Ok (JObj entry')
    /\ PyDict.wf entry'
    /\ (forall k, k <> VERIFY ->
        PyDict.get k entry' =
        PyDict.get k [(lit "gender", JStr (lit "m")); (HEAD, JStr (lit "x"));
                      (lit "syns", JArr [])])
    /\ PyDict.get VERIFY entry' =
       match PyDict.get HEAD [(lit "gender", JStr (lit "m"));
                              (HEAD, JStr (lit "x")); (lit "syns", JArr [])],
             PyDict.get VERIFY [(lit "gender", JStr (lit "m"));
                                (HEAD, JStr (lit "x")); (lit "syns", JArr [])]
       with
       | Some _, None => Some (JBool false)
       | _, own => own
       end.
Proof.
  apply (@reorder_entry_keeps_fields
           [(lit "gender", JStr (lit "m")); (HEAD, JStr (lit "x"));
            (lit "syns", JArr [])]).
  unfold PyDict.wf. cbn. repeat constructor; cbn; intuition discriminate.
Defined.

Lemma filter_twice (A : Type) (f : A -> bool) (l : list A) :
  filter f (filter f l) = filter f l.
Proof.
  induction l as [| a l IH]; [reflexivity |]. cbn [filter].
  destruct (f a) eqn:E; [| exact IH]. cbn [filter]. now rewrite E, IH.
Qed.

(** Reordering an entry a second time changes nothing. *)
Lemma reorder_entry_again x y :
  json_wf x -> reorder_entry x = Ok y -> reorder_entry y = Ok y.
Proof.
  destruct x as [| | | | s | l | e]; cbn [reorder_entry]; try discriminate.
  - intros _. destruct (contains HEAD s) eqn:E; [discriminate |].
    intros H. inversion H; subst. cbn [reorder_entry]. now rewrite E.
  - intros _. destruct (existsb is_head l) eqn:E; [discriminate |].
    intros H. inversion H; subst. cbn [reorder_entry]. now rewrite E.
  - intros Hwf. apply json_wf_obj in Hwf as [Hwf _].
    destruct (PyDict.get HEAD e) as [head |] eqn:Eh.
    + rewrite rebuild_spec by exact Hwf. intros H. inversion H; subst.
      cbn [reorder_entry PyDict.get]. rewrite str_eqb_refl.
      rewrite rebuild_spec by now apply rebuilt_wf.
      cbn [PyDict.get]. replace (str_eqb HEAD VERIFY) with false by reflexivity.
      rewrite str_eqb_refl. do 4 f_equal.
      unfold without_head_verify at 1. cbn [filter fst].
      rewrite str_eqb_refl. cbn [negb andb].
      replace (str_eqb VERIFY HEAD) with false by reflexivity.
      rewrite str_eqb_refl. cbn [negb andb]. apply filter_twice.
    + intros H. inversion H; subst. cbn [reorder_entry]. now rewrite Eh.
Qed.

Lemma for_each_again : forall l l',
  Forall json_wf l -> for_each reorder_entry l = Ok l' ->
  for_each reorder_entry l' = Ok l'.
Proof.
  induction l as [| x r IH]; intros l' Hwf H.
  - inversion H. reflexivity.
  - inversion Hwf as [| ? ? Hx Hr]; subst. cbn [for_each] in H.
    destruct (reorder_entry x) as [y |] eqn:Ex; cbn [bind] in H;
      [| discriminate].
    destruct (for_each reorder_entry r) as [ys |] eqn:Er; cbn [bind] in H;
      [| discriminate].
    inversion H; subst. cbn [for_each].
    rewrite (@reorder_entry_again x y Hx Ex). cbn [bind].
    rewrite (IH ys Hr eq_refl). reflexivity.
Qed.

Lemma for_each_length : forall l l',
  for_each reorder_entry l = Ok l' -> List.length l' = List.length l.
Proof.
  induction l as [| x r IH]; intros l' H.
  - inversion H. reflexivity.
  - cbn [for_each] in H.
    destruct (reorder_entry x) as [y |]; cbn [bind] in H; [| discriminate].
    destruct (for_each reorder_entry r) as [ys |] eqn:Er; cbn [bind] in H;
      [| discriminate].
    inversion H; subst. cbn [List.length]. f_equal. now apply IH.
Qed.

Lemma get_wf (d : PyDict.dict json) k x :
  json_wf (JObj d) -> PyDict.get k d = Some x -> json_wf x.
Proof.
  intros Hwf. apply json_wf_obj in Hwf as [_ Hv].
  induction Hv as [| [k' v] r Hkv Hr IH]; [discriminate |].
  cbn [PyDict.get]. destruct (str_eqb k' k).
  - intros H. inversion H; subst. exact Hkv.
  - exact IH.
Qed.

(** X14. The [verify] insertion is idempotent on decoded values: done a
    second time on its own result, it raises nothing and changes
    nothing. *)
Theorem add_verify_idempotent (parsed parsed' : json) :
  json_wf parsed ->
  add_verify parsed = Ok parsed' ->
  add_verify parsed' = Ok parsed'.
Proof.
  intros Hwf H.
  destruct parsed as [| | | | | | d]; try discriminate.
  cbn [add_verify] in H.
  destruct (PyDict.get ENTRIES d) as [x |] eqn:Eg.
  2:{ inversion H; subst. cbn [add_verify]. now rewrite Eg. }
  pose proof (@get_wf d ENTRIES x Hwf Eg) as Hx.
  destruct (iterate x) as [items |] eqn:Ei; cbn [bind] in H; [| discriminate].
  destruct (for_each reorder_entry items) as [items' |] eqn:Ef;
    cbn [bind] in H; [| discriminate].
  destruct x as [| | | | s | l | e]; try discriminate;
    inversion H; subst; clear H.
  - cbn [add_verify]. rewrite Eg, Ei. cbn [bind]. now rewrite Ef.
  - cbn [iterate] in Ei. inversion Ei; subst.
    cbn [add_verify]. rewrite get_set_same. cbn [iterate bind].
    apply json_wf_arr in Hx.
    rewrite (@for_each_again _ _ Hx Ef). cbn [bind]. now rewrite set_set.
  - cbn [add_verify]. rewrite Eg, Ei. cbn [bind]. now rewrite Ef.
Qed.

Lemma add_verify_idempotent_witness :
  add_verify
    (JObj [(ENTRIES,
            JArr [JObj [(HEAD, JStr (lit "x")); (VERIFY, JBool false);
                        (lit "gender", JStr (lit "m"))];
                  JObj [(lit "note", JNull)]]);
           (lit "extra", JInt 1)])
  = Ok (JObj [(ENTRIES,
               JArr [JObj [(HEAD, JStr (lit "x")); (VERIFY, JBool false);
                           (lit "gender", JStr (lit "m"))];
                     JObj [(lit "note", JNull)]]);
              (lit "extra", JInt 1)]).
Proof.
  apply (@add_verify_idempotent
           (JObj [(ENTRIES,
                   JArr [JObj [(lit "gender", JStr (lit "m"));
                               (HEAD, JStr (lit "x"))];
                         JObj [(lit "note", JNull)]]);
                  (lit "extra", JInt 1)])).
  - cbn. repeat split; repeat constructor; cbn; intuition discriminate.
  - reflexivity.
Defined.

(** X15. The [verify] insertion touches the entries and nothing else: the
    result is a dict with the same keys in the same order, every value
    other than that of [entries] is as it was, and there are as many
    records as before. *)
Theorem add_verify_touches_entries_only
    (d : PyDict.dict json) (parsed' : json) :
  add_verify (JObj d) = Ok parsed' ->
  exists d',
    parsed' = JObj d'
    /\ PyDict.keys d' = PyDict.keys d
    /\ (forall k, k <> ENTRIES -> PyDict.get k d' = PyDict.get k d)
    /\ List.length (records parsed') = List.length (records (JObj d)).
Proof.
  intros H. cbn [add_verify] in H.
  destruct (PyDict.get ENTRIES d) as [x |] eqn:Eg.
  2:{ inversion H; subst. exists d. now repeat split. }
  destruct (iterate x) as [items |] eqn:Ei; cbn [bind] in H; [| discriminate].
  destruct (for_each reorder_entry items) as [items' |] eqn:Ef;
    cbn [bind] in H; [| discriminate].
  destruct x as [| | | | s | l | e]; try discriminate;
    inversion H; subst; clear H.
  - exists d. now repeat split.
  - cbn [iterate] in Ei. inversion Ei; subst.
    exists (PyDict.set ENTRIES (JArr items') d). repeat split.
    + apply keys_set_in. eapply get_Some_in. exact Eg.
    + intros k Hk. now apply get_set_other.
    + cbn [records]. rewrite get_set_same, Eg. now apply for_each_length.
  - exists d. now repeat split.
Qed.

Lemma add_verify_touches_entries_only_witness :
  exists d',
    JObj [(lit "note", JStr (lit "n"));
          (ENTRIES, JArr [JObj [(HEAD, JStr (lit "x")); (VERIFY, JBool false)]])]
    = JObj d'
    /\ PyDict.keys d'
       = PyDict.keys [(lit "note", JStr (lit "n"));
                      (ENTRIES, JArr [JObj [(HEAD, JStr (lit "x"))]])]
    /\ (forall k, k <> ENTRIES ->
        PyDict.get k d'
        = PyDict.get k [(lit "note", JStr (lit "n"));
                        (ENTRIES, JArr [JObj [(HEAD, JStr (lit "x"))]])])
    /\ List.length
         (records
            (JObj [(lit "note", JStr (lit "n"));
                   (ENTRIES,
                    JArr [JObj [(HEAD, JStr (lit "x")); (VERIFY, JBool false)]])]))
       = List.length
           (records
              (JObj [(lit "note", JStr (lit "n"));
                     (ENTRIES, JArr [JObj [(HEAD, JStr (lit "x"))]])])).
Proof.
  apply (@add_verify_touches_entries_only
           [(lit "note", JStr (lit "n"));
            (ENTRIES, JArr [JObj [(HEAD, JStr (lit "x"))]])]).
  reflexivity.
Defined.

(** ** When a run reaches the end *)




(** X18. An entry with a [head] and no [verify] of its own comes out as
    [head], [verify: false], then its other fields in the order they had;
    an entry without [head] comes out as it was, with no [verify] put
    in. *)
Theorem verify_inserted_after_head (entry : PyDict.dict json) :
  PyDict.wf entry ->
  (forall head,
      PyDict.get HEAD entry = Some head ->
      PyDict.get VERIFY entry = None ->
      reorder_entry (JObj entry) =
      Ok (JObj ((HEAD, head) :: (VERIFY, JBool false) :: without_head entry)))
  /\ (PyDict.get HEAD entry = None ->
      reorder_entry (JObj entry) = Ok (JObj entry)).
Proof. apply reorder_entry_field_order. Qed.

Lemma verify_inserted_after_head_witness :
  reorder_entry
    (JObj [(lit "gender", JStr (lit "f")); (HEAD, JStr (lit "x"));
           (lit "qual", JStr (lit "q")); (lit "syns", JArr [])])
  = Ok (JObj [(HEAD, JStr (lit "x")); (VERIFY, JBool false);
              (lit "gender", JStr (lit "f")); (lit "qual", JStr (lit "q"));
              (lit "syns", JArr [])]).
Proof.
  apply (proj1 (@verify_inserted_after_head
                  [(lit "gender", JStr (lit "f")); (HEAD, JStr (lit "x"));
                   (lit "qual", JStr (lit "q")); (lit "syns", JArr [])]
                  ltac:(unfold PyDict.wf; cbn; repeat constructor; cbn;
                        intuition discriminate))
           (JStr (lit "x"))).
  - reflexivity.
  - reflexivity.
Defined.

(** ** Replies at the edge of the cleaning *)

Lemma drop_back_app (x y : str) : drop_back (List.length y) (x ++ y) = x.
Proof.
  unfold drop_back. rewrite length_app, Nat.add_sub.
  rewrite firstn_app, Nat.sub_diag, firstn_all. cbn [firstn].
  apply app_nil_r.
Qed.

Lemma drop_back_fence (x : str) : drop_back 3 (x ++ FENCE) = x.
Proof. apply (drop_back_app x FENCE). Qed.

Lemma loads_fence_start s : startswith FENCE s = true -> Json.loads s = None.
Proof.
  intros H. destruct (Json.loads s) as [v |] eqn:E; [| reflexivity].
  apply loads_no_fence in E as [E _]. congruence.
Qed.

Lemma strip_fence_ends (x : str) :
  strip (FENCE ++ x ++ FENCE) = FENCE ++ x ++ FENCE.
Proof.
  unfold strip. rewrite lstrip_fence, app_assoc. apply rstrip_fence.
Qed.

(** X19. A payload of one line wrapped in a fence without a tag whose
    closing fence is glued to the payload (backticks, line feed, payload,
    backticks) is not recovered: the reply has two lines only, so the first
    line stays, the text handed to [json.loads] begins with the backticks,
    and the verse gets [{"entries": []}] whatever the payload was. *)
Theorem glued_closing_fence_loses_payload (sloka payload : str) :
  one_line payload ->
  response_text (FENCE ++ (NL :: payload) ++ FENCE)
  = strip (FENCE ++ NL :: payload)
  /\ enrich_stage sloka
       (fun _ => Message [TextBlock (FENCE ++ (NL :: payload) ++ FENCE)])
     = Ok no_entries.
Proof.
  intros Hp.
  assert (E : response_text (FENCE ++ (NL :: payload) ++ FENCE)
              = strip (FENCE ++ NL :: payload)).
  { unfold response_text. rewrite strip_fence_ends, startswith_app.
    replace (split_on NL (FENCE ++ (NL :: payload) ++ FENCE))
      with [FENCE; payload ++ FENCE].
    2:{ symmetry. cbn [app]. rewrite (split_on_app NL FENCE (payload ++ FENCE)).
        rewrite (@split_on_one_line NL FENCE) by reflexivity.
        rewrite (@split_on_one_line NL (payload ++ FENCE))
          by (apply one_line_app; [exact Hp | reflexivity]).
        reflexivity. }
    cbn [List.length Nat.ltb Nat.leb].
    replace (startswith FENCE_JSON (FENCE ++ (NL :: payload) ++ FENCE))
      with false by reflexivity.
    replace (FENCE ++ (NL :: payload) ++ FENCE)
      with ((FENCE ++ NL :: payload) ++ FENCE)
      by (now rewrite <- app_assoc).
    rewrite endswith_app.
    now rewrite drop_back_fence. }
  split; [exact E |].
  unfold enrich_stage, parse_sloka_with_claude. cbn [first_text].
  rewrite E, loads_fence_start; [reflexivity |].
  apply strip_keeps_fence_start, startswith_app.
Qed.

Lemma glued_closing_fence_loses_payload_witness :
  response_text (FENCE ++ (NL :: txt "{'entries': [{'head': 'x'}]}") ++ FENCE)
  = strip (FENCE ++ NL :: txt "{'entries': [{'head': 'x'}]}")
  /\ enrich_stage (lit "a")
       (fun _ =>
          Message
            [TextBlock
               (FENCE ++ (NL :: txt "{'entries': [{'head': 'x'}]}") ++ FENCE)])
     = Ok no_entries.
Proof.
  apply (@glued_closing_fence_loses_payload
           (lit "a") (txt "{'entries': [{'head': 'x'}]}")).
  reflexivity.
Defined.

(** X20. A reply made of whitespace only, the empty reply included, gives
    [{"entries": []}]: the stage raises nothing and the verse has no
    record. *)
Theorem blank_parse_reply_gives_no_records
    (sloka text : str) (more : list block) (create : request -> reply) :
  create (parsing_request sloka) = Message (TextBlock text :: more) ->
  blank text ->
  enrich_stage sloka create = Ok no_entries.
Proof.
  intros H Hb. unfold enrich_stage, parse_sloka_with_claude.
  rewrite H. cbn [first_text]. unfold response_text.
  rewrite (@strip_blank text Hb). reflexivity.
Qed.

Lemma blank_parse_reply_gives_no_records_witness :
  enrich_stage (lit "a") (parses_with (txt " | ") 0) = Ok no_entries.
Proof.
  apply (@blank_parse_reply_gives_no_records (lit "a") (txt " | ") []
           (parses_with (txt " | ") 0)).
  - reflexivity.
  - reflexivity.
Defined.

Lemma split_on_length_cons sep c (s : str) :
  List.length (split_on sep (c :: s)) =
  if (c =? sep)%N then S (List.length (split_on sep s))
  else List.length (split_on sep s).
Proof.
  cbn [split_on]. destruct (c =? sep)%N; [reflexivity |].
  destruct (split_on sep s) eqn:E; [| reflexivity].
  now apply split_on_not_nil in E.
Qed.

Lemma split_on_length_prefix (a s : str) :
  one_line a ->
  List.length (split_on NL (a ++ s)) = List.length (split_on NL s).
Proof.
  unfold one_line. induction a as [| c a IH]; [reflexivity |].
  cbn [forallb app]. intros H. apply andb_true_iff in H as [Hc H].
  apply negb_true_iff in Hc. now rewrite split_on_length_cons, Hc, IH.
Qed.

Lemma split_on_length_suffix (s b : str) :
  one_line b ->
  List.length (split_on NL (s ++ b)) = List.length (split_on NL s).
Proof.
  intros Hb. induction s as [| c s IH].
  - cbn [app]. now rewrite (@split_on_one_line NL b Hb).
  - cbn [app]. now rewrite !split_on_length_cons, IH.
Qed.

(** X21. A reply of one or two lines that opens with the fence tagged
    [json] and ends with a fence is recovered without the line-based
    removal: the seven characters of the opening and the three of the
    closing are cut, and what is left, stripped, is decoded. *)
Theorem short_json_fence_recovered (sloka q : str) (parsed : json) :
  List.length (split_on NL q) <= 2 ->
  Json.loads (strip q) = Some parsed ->
  response_text (FENCE_JSON ++ q ++ FENCE) = strip q
  /\ parse_sloka_with_claude sloka
       (fun _ => Message [TextBlock (FENCE_JSON ++ q ++ FENCE)])
     = parsed.
Proof.
  intros Hlen Hl.
  assert (E : response_text (FENCE_JSON ++ q ++ FENCE) = strip q).
  { unfold response_text.
    assert (Es : strip (FENCE_JSON ++ q ++ FENCE) = FENCE_JSON ++ q ++ FENCE).
    { change FENCE_JSON with (FENCE ++ lit "json"). rewrite <- app_assoc.
      rewrite (app_assoc (lit "json") q FENCE). apply strip_fence_ends. }
    rewrite Es.
    replace (startswith FENCE (FENCE_JSON ++ q ++ FENCE)) with true.
    2:{ symmetry. apply fence_json_fence, startswith_app. }
    replace (2 <? List.length (split_on NL (FENCE_JSON ++ q ++ FENCE)))
      with false.
    2:{ symmetry. apply Nat.ltb_ge.
        rewrite split_on_length_prefix by reflexivity.
        rewrite split_on_length_suffix by reflexivity. exact Hlen. }
    rewrite startswith_app.
    replace (drop_front 7 (FENCE_JSON ++ q ++ FENCE)) with (q ++ FENCE)
      by reflexivity.
    now rewrite endswith_app, drop_back_fence. }
  split; [exact E |].
  unfold parse_sloka_with_claude. cbn [first_text]. now rewrite E, Hl.
Qed.

Lemma short_json_fence_recovered_witness :
  response_text (FENCE_JSON ++ txt "{'entries': []}" ++ FENCE)
  = strip (txt "{'entries': []}")
  /\ parse_sloka_with_claude (lit "a")
       (fun _ =>
          Message [TextBlock (FENCE_JSON ++ txt "{'entries': []}" ++ FENCE)])
     = JObj [(ENTRIES, JArr [])].
Proof.
  apply (@short_json_fence_recovered (lit "a") (txt "{'entries': []}")).
  - vm_compute. lia.
  - vm_compute. reflexivity.
Defined.

Lemma rstrip_app_fixed (x y : str) :
  rstrip y = y -> y <> [] -> rstrip (x ++ y) = x ++ y.
Proof.
  intros Hy Hne. induction x as [| a x IH]; [exact Hy |].
  cbn [app]. rewrite rstrip_cons, IH.
  destruct (x ++ y) eqn:E; [| reflexivity].
  apply app_eq_nil in E. tauto.
Qed.

Lemma join_snoc (sep : str) (l : list str) (x : str) :
  l <> [] -> join sep (l ++ [x]) = join sep l ++ sep ++ x.
Proof.
  induction l as [| w l IH]; [congruence |]. intros _.
  destruct l as [| w2 l]; [reflexivity |].
  change ((w :: w2 :: l) ++ [x]) with (w :: (w2 :: l) ++ [x]).
  change ((w2 :: l) ++ [x]) with (w2 :: l ++ [x]) at 1.
  rewrite join_cons2.
  change (w2 :: l ++ [x]) with ((w2 :: l) ++ [x]).
  rewrite IH by discriminate. rewrite join_cons2.
  now rewrite <- !app_assoc.
Qed.

(** A prefix test that succeeds across a character the prefix does not
    hold succeeds before it. *)
Lemma startswith_app_inv (q p r : str) c :
  ~ In c q -> startswith q (p ++ c :: r) = true -> startswith q p = true.
Proof.
  revert p. induction q as [| a q IH]; intros p Hc H; [reflexivity |].
  destruct p as [| b p].
  - cbn [app startswith] in H. apply andb_true_iff in H as [H _].
    apply N.eqb_eq in H. subst. exfalso. apply Hc. now left.
  - cbn [app startswith] in *. apply andb_true_iff in H as [Hab H].
    rewrite Hab. apply IH; [| exact H]. intros Hin. apply Hc. now right.
Qed.

Lemma strip_app_blank (p ws : str) : blank ws -> strip (p ++ ws) = strip p.
Proof.
  intros Hb. unfold strip.
  destruct (lstrip_head p) as [E | (c & r & E & Hc)].
  - (* the payload is blank too *)
    assert (Hp : forallb isspace p = true).
    { clear -E. induction p as [| a p IH]; [reflexivity |].
      cbn [lstrip] in E. cbn [forallb].
      destruct (isspace a); [now apply IH | discriminate]. }
    rewrite E. rewrite lstrip_spaces_app by exact Hp.
    rewrite <- (app_nil_r ws), lstrip_spaces_app by exact Hb. reflexivity.
  - assert (El : lstrip (p ++ ws) = lstrip p ++ ws).
    { clear -E Hc. revert E. induction p as [| a p IH]; [discriminate |].
      cbn [lstrip app]. destruct (isspace a); [exact IH | reflexivity]. }
    rewrite El. now apply rstrip_app_spaces.
Qed.

(** X22. One line of text after the closing fence does no harm: it is the
    last line, which goes away with the opening fence line, and the closing
    fence is then cut from the end, so that the reply is parsed like the
    payload alone. *)
Theorem trailing_line_after_fence
    (sloka tag payload trailer : str) (parsed : json) :
  one_line tag -> one_line trailer ->
  rstrip trailer = trailer -> trailer <> [] ->
  Json.loads (strip payload) = Some parsed ->
  response_text
    (FENCE ++ tag ++ NL :: payload ++ NL :: FENCE ++ NL :: trailer)
  = strip payload
  /\ parse_sloka_with_claude sloka
       (fun _ =>
          Message
            [TextBlock
               (FENCE ++ tag ++ NL :: payload ++ NL :: FENCE ++ NL :: trailer)])
     = parsed.
Proof.
  intros Ht Hr Hfix Hne Hl.
  pose proof (decoded_payload_unfenced _ Hl) as [Hs He].
  set (T := FENCE ++ tag ++ NL :: payload ++ NL :: FENCE ++ NL :: trailer).
  assert (Es : strip T = T).
  { unfold strip, T. rewrite lstrip_fence.
    replace (FENCE ++ tag ++ NL :: payload ++ NL :: FENCE ++ NL :: trailer)
      with ((FENCE ++ tag ++ NL :: payload ++ NL :: FENCE ++ [NL]) ++ trailer).
    2:{ repeat (rewrite <- app_assoc || rewrite <- app_comm_cons).
        reflexivity. }
    now apply rstrip_app_fixed. }
  assert (Elines : split_on NL T =
                   (FENCE ++ tag) :: (split_on NL payload ++ [FENCE])
                   ++ [trailer]).
  { unfold T.
    replace (FENCE ++ tag ++ NL :: payload ++ NL :: FENCE ++ NL :: trailer)
      with ((FENCE ++ tag) ++ NL :: payload ++ NL :: FENCE ++ NL :: trailer)
      by now rewrite <- app_assoc.
    rewrite !split_on_app.
    rewrite (@split_on_one_line NL (FENCE ++ tag))
      by (apply one_line_app; [reflexivity | exact Ht]).
    rewrite (@split_on_one_line NL FENCE) by reflexivity.
    rewrite (@split_on_one_line NL trailer) by exact Hr.
    cbn [app]. now rewrite <- app_assoc. }
  assert (E : response_text T = strip payload).
  { unfold response_text. rewrite Es.
    replace (startswith FENCE T) with true
      by (symmetry; apply startswith_app).
    rewrite Elines.
    match goal with
    | |- context [Nat.ltb 2 ?n] => replace (Nat.ltb 2 n) with true
    end.
    2:{ symmetry. apply Nat.ltb_lt. cbn [List.length].
        rewrite !length_app. cbn [List.length].
        destruct (split_on NL payload) eqn:En;
          [now apply split_on_not_nil in En | cbn [List.length]; lia]. }
    rewrite inner_lines_between.
    rewrite join_snoc by apply split_on_not_nil.
    rewrite join_split_on. cbn [app].
    replace (startswith FENCE_JSON (payload ++ NL :: FENCE)) with false.
    2:{ symmetry.
        apply (bool_false_of_contra
                 (b := startswith FENCE_JSON (payload ++ NL :: FENCE))
                 (b' := startswith FENCE (strip payload))); [| exact Hs].
        intros H. apply strip_keeps_fence_start.
        apply fence_json_fence in H.
        apply (@startswith_app_inv FENCE payload FENCE NL); [| exact H].
        cbn. intuition discriminate. }
    replace (payload ++ NL :: FENCE) with ((payload ++ [NL]) ++ FENCE)
      by now rewrite <- app_assoc.
    rewrite endswith_app, drop_back_fence.
    now apply strip_app_blank. }
  split; [exact E |].
  unfold parse_sloka_with_claude. cbn [first_text]. fold T.
  now rewrite E, Hl.
Qed.

Lemma trailing_line_after_fence_witness :
  response_text
    (FENCE ++ lit "json" ++ NL :: txt "{'entries': []}" ++ NL :: FENCE
     ++ NL :: lit "Let me know if you need more.")
  = strip (txt "{'entries': []}")
  /\ parse_sloka_with_claude (lit "a")
       (fun _ =>
          Message
            [TextBlock
               (FENCE ++ lit "json" ++ NL :: txt "{'entries': []}"
                ++ NL :: FENCE ++ NL :: lit "Let me know if you need more.")])
     = JObj [(ENTRIES, JArr [])].
Proof.
  apply (@trailing_line_after_fence (lit "a") (lit "json")
           (txt "{'entries': []}") (lit "Let me know if you need more.")).
  - reflexivity.
  - reflexivity.
  - reflexivity.
  - discriminate.
  - vm_compute. reflexivity.
Defined.
